(** * A chat page script: the markdown renderer, the submit handler and the
      theme toggle of [public/script.js], embedded in Rocq.

    JavaScript strings are sequences of UTF-16 code units; they are modelled
    as lists of code units ([N]).  The regular expressions of the script are
    run by a small backtracking matcher that follows the ECMAScript
    semantics of the constructs the script uses: literal characters, the
    classes [\s], [\d] and [.], greedy and lazy repetition of a class, the
    assertions [^] and [$] under the [m] flag and one capture group. *)

From Stdlib Require Import NArith Ascii String.
From stdpp Require Import base option list gmap.

Local Open Scope N_scope.

(** ** Strings *)

Abbreviation char := N (only parsing).
Abbreviation jsstring := (list N) (only parsing).

Definition ch (a : ascii) : char := N_of_ascii a.

(** [js "abc"] is the JavaScript string with the code units of an ASCII
    literal. *)
Definition js (s : string) : jsstring := ch <$> list_ascii_of_string s.

Definition LF : char := 10.

(** LineTerminator of ECMAScript: LF, CR, LS, PS. *)
Definition isLineTerminator (c : char) : bool :=
  (c =? 10) || (c =? 13) || (c =? 8232) || (c =? 8233).

(** WhiteSpace of ECMAScript: TAB, VT, FF, ZWNBSP and the space separators. *)
Definition isWhiteSpace (c : char) : bool :=
  (c =? 9) || (c =? 11) || (c =? 12) || (c =? 32) || (c =? 160) ||
  (c =? 5760) || ((8192 <=? c) && (c <=? 8202)) || (c =? 8239) ||
  (c =? 8287) || (c =? 12288) || (c =? 65279).

(** The class [\s], also the characters removed by [String.prototype.trim]. *)
Definition isSpace (c : char) : bool := isWhiteSpace c || isLineTerminator c.

(** The class [\d]. *)
Definition isDigit (c : char) : bool := (48 <=? c) && (c <=? 57).

(** The class [.] without the [s] flag. *)
Definition isDot (c : char) : bool := negb (isLineTerminator c).

(** ** Regular expressions *)

Module Regex.

(** A pattern is a sequence of terms; repetition is applied to character
    classes only, which is all the script needs. *)
Inductive node :=
| Chr (c : char)              (* a literal character *)
| StarG (p : char -> bool)    (* p*  *)
| StarL (p : char -> bool)    (* p*? *)
| PlusG (p : char -> bool)    (* p+  *)
| Bol                         (* ^ with the m flag *)
| Eol                         (* $ with the m flag *)
| Open                        (* ( of group 1 *)
| Close.                      (* ) of group 1 *)

Definition regex := list node.

(** Matcher state: the number of characters consumed since the start of the
    match, the characters consumed since group 1 was opened (most recent
    first) and the capture of group 1. *)
Record mstate := MState {
  m_len : nat;
  m_open : option jsstring;
  m_cap : option jsstring
}.

Definition eat (d : char) (st : mstate) : mstate :=
  {| m_len := S (m_len st); m_open := cons d <$> m_open st; m_cap := m_cap st |}.

Definition open_group (st : mstate) : mstate :=
  {| m_len := m_len st; m_open := Some []; m_cap := m_cap st |}.

Definition close_group (st : mstate) : mstate :=
  {| m_len := m_len st; m_open := None; m_cap := reverse <$> m_open st |}.

(** A successful match: its length and the capture of group 1. *)
Definition result := (nat * option jsstring)%type.

(** A continuation receives the character before the current position, the
    rest of the input and the matcher state. *)
Definition cont := option char -> jsstring -> mstate -> option result.

(** Greedy repetition: take a character of the class and repeat; when that
    fails, go on with the continuation. *)
Fixpoint greedy (p : char -> bool) (k : cont)
    (prev : option char) (s : jsstring) (st : mstate) : option result :=
  match s with
  | d :: t =>
      if p d then
        match greedy p k (Some d) t (eat d st) with
        | Some r => Some r
        | None => k prev s st
        end
      else k prev s st
  | [] => k prev s st
  end.

(** Lazy repetition: try the continuation first; when that fails, take one
    character of the class and repeat. *)
Fixpoint lazy (p : char -> bool) (k : cont)
    (prev : option char) (s : jsstring) (st : mstate) : option result :=
  match k prev s st with
  | Some r => Some r
  | None =>
      match s with
      | d :: t => if p d then lazy p k (Some d) t (eat d st) else None
      | [] => None
      end
  end.

Definition at_line_start (prev : option char) : bool :=
  match prev with
  | None => true
  | Some c => isLineTerminator c
  end.

Definition at_line_end (s : jsstring) : bool :=
  match s with
  | [] => true
  | c :: _ => isLineTerminator c
  end.

Fixpoint mseq (r : regex) : cont :=
  match r with
  | [] => fun _ _ st => Some (m_len st, m_cap st)
  | Chr c :: r' => fun _ s st =>
      match s with
      | d :: t => if c =? d then mseq r' (Some d) t (eat d st) else None
      | [] => None
      end
  | StarG p :: r' => greedy p (mseq r')
  | StarL p :: r' => lazy p (mseq r')
  | PlusG p :: r' => fun _ s st =>
      match s with
      | d :: t => if p d then greedy p (mseq r') (Some d) t (eat d st) else None
      | [] => None
      end
  | Bol :: r' => fun prev s st =>
      if at_line_start prev then mseq r' prev s st else None
  | Eol :: r' => fun prev s st =>
      if at_line_end s then mseq r' prev s st else None
  | Open :: r' => fun prev s st => mseq r' prev s (open_group st)
  | Close :: r' => fun prev s st => mseq r' prev s (close_group st)
  end.

(** One attempt to match at the current position. *)
Definition exec (r : regex) (prev : option char) (s : jsstring) : option result :=
  mseq r prev s {| m_len := 0; m_open := None; m_cap := None |}.

(** Replacement templates: literal text and [$1]. *)
Inductive piece :=
| Lit (s : jsstring)
| Group1.

Definition template := list piece.

Definition expand (tpl : template) (cap : option jsstring) : jsstring :=
  flat_map (fun pc => match pc with Lit s => s | Group1 => default [] cap end) tpl.

(** [String.prototype.replace] with a global pattern.  The input is walked
    from left to right; [skip] counts the characters of the current match
    that are still to be passed over.  At a position outside a match the
    pattern is tried: on success the expanded template is emitted and the
    matched characters are skipped (after an empty match the next character
    is copied and the walk resumes behind it); on failure the character is
    copied.  The pattern is also tried at the end of the input. *)
Fixpoint scan (r : regex) (tpl : template)
    (prev : option char) (s : jsstring) (skip : nat) : jsstring :=
  match skip with
  | S k =>
      match s with
      | [] => []
      | c :: t => scan r tpl (Some c) t k
      end
  | O =>
      match exec r prev s with
      | Some (n, cap) =>
          expand tpl cap ++
          match s with
          | [] => []
          | c :: t =>
              match n with
              | O => c :: scan r tpl (Some c) t 0
              | S k => scan r tpl (Some c) t k
              end
          end
      | None =>
          match s with
          | [] => []
          | c :: t => c :: scan r tpl (Some c) t 0
          end
      end
  end.

Definition replace (r : regex) (tpl : template) (s : jsstring) : jsstring :=
  scan r tpl None s 0.

End Regex.

Import Regex.

(** ** Other string methods *)

(** [s.startsWith(p)] *)
Fixpoint startsWith (p s : jsstring) : bool :=
  match p, s with
  | [], _ => true
  | a :: p', b :: s' => (a =? b) && startsWith p' s'
  | _ :: _, [] => false
  end.

(** [s.includes(sub)] *)
Fixpoint includes (sub s : jsstring) : bool :=
  startsWith sub s ||
  match s with
  | [] => false
  | _ :: t => includes sub t
  end.

(** [s.split('\n')] *)
Fixpoint split_lines (s : jsstring) : list jsstring :=
  match s with
  | [] => [[]]
  | c :: t =>
      if c =? LF then [] :: split_lines t
      else match split_lines t with
           | l :: ls => (c :: l) :: ls
           | [] => [[c]]
           end
  end.

Fixpoint trimStart (s : jsstring) : jsstring :=
  match s with
  | c :: t => if isSpace c then trimStart t else s
  | [] => []
  end.

(** [s.trim()] *)
Definition trim (s : jsstring) : jsstring :=
  reverse (trimStart (reverse (trimStart s))).

(** Truthiness of a string. *)
Definition nonempty (s : jsstring) : bool :=
  match s with
  | [] => false
  | _ :: _ => true
  end.

(** ** parseMarkdown *)

Definition amp_re : regex := [Chr (ch "&")].
Definition lt_re : regex := [Chr (ch "<")].
Definition gt_re : regex := [Chr (ch ">")].

(** The pattern of step 2: two stars, a lazy group of [.], two stars; flag g. *)
Definition bold_re : regex :=
  [Chr (ch "*"); Chr (ch "*"); Open; StarL isDot; Close; Chr (ch "*"); Chr (ch "*")].

(** The pattern of step 3: a star, a lazy group of [.], a star; flag g. *)
Definition italic_re : regex :=
  [Chr (ch "*"); Open; StarL isDot; Close; Chr (ch "*")].

(** The pattern of step 4: [^], [\s] repeated, a hyphen, [\s] at least once,
    a greedy group of [.], [$]; flags g and m. *)
Definition ulist_re : regex :=
  [Bol; StarG isSpace; Chr (ch "-"); PlusG isSpace; Open; StarG isDot; Close; Eol].

(** The pattern of step 5: [^], [\s] repeated, [\d] at least once, a period,
    [\s] at least once, a greedy group of [.], [$]; flags g and m. *)
Definition olist_re : regex :=
  [Bol; StarG isSpace; PlusG isDigit; Chr (ch "."); PlusG isSpace;
   Open; StarG isDot; Close; Eol].

Definition strong_tpl : template := [Lit (js "<strong>"); Group1; Lit (js "</strong>")].
Definition em_tpl : template := [Lit (js "<em>"); Group1; Lit (js "</em>")].
Definition li_tpl : template := [Lit (js "<li>"); Group1; Lit (js "</li>")].

(** Step 1 of [parseMarkdown]: the three escaping replacements, in the
    order of the source. *)
Definition escapeHtml (text : jsstring) : jsstring :=
  replace gt_re [Lit (js "&gt;")]
    (replace lt_re [Lit (js "&lt;")]
       (replace amp_re [Lit (js "&amp;")] text)).

Definition bold (s : jsstring) : jsstring := replace bold_re strong_tpl s.
Definition italic (s : jsstring) : jsstring := replace italic_re em_tpl s.
Definition ulist (s : jsstring) : jsstring := replace ulist_re li_tpl s.
Definition olist (s : jsstring) : jsstring := replace olist_re li_tpl s.

(** The body of the [forEach] callback, on the pair [(html, inList)]. *)
Definition walk_line (acc : jsstring * bool) (line : jsstring) : jsstring * bool :=
  let '(html, inList) := acc in
  if includes (js "<li>") line then
    let html := if negb inList then html ++ js "<ul>" else html in
    (html ++ line, true)
  else
    let html := if inList then html ++ js "</ul>" else html in
    let html := if nonempty (trim line)
                then html ++ js "<p>" ++ line ++ js "</p>" else html in
    (html, false).

(** The line walk with the closing of a list that is still open. *)
Definition wrap_lines (lines : list jsstring) : jsstring :=
  let '(html, inList) := foldl walk_line ([], false) lines in
  if inList then html ++ js "</ul>" else html.

Definition parseMarkdown (text : jsstring) : jsstring :=
  if negb (nonempty text) then []
  else
    let safeText := escapeHtml text in
    let safeText := bold safeText in
    let safeText := italic safeText in
    let safeText := ulist safeText in
    let safeText := olist safeText in
    wrap_lines (split_lines safeText).

(** ** The page *)

(** Values that [response.json()] can produce.  Of a number only the test
    against zero is observed by the script. *)
#[warnings="-register-all"]
Inductive value :=
| VUndefined
| VNull
| VBool (b : bool)
| VNumber (z : Z)
| VString (s : jsstring)
| VArray (items : list value)
| VObject (props : gmap jsstring value).

(** ToBoolean *)
Definition truthy (v : value) : bool :=
  match v with
  | VUndefined | VNull => false
  | VBool b => b
  | VNumber z => negb (z =? 0)%Z
  | VString s => nonempty s
  | VArray _ | VObject _ => true
  end.

(** [v.result] on a value that is neither [null] nor [undefined]. *)
Definition get_result (v : value) : value :=
  match v with
  | VObject props => default VUndefined (props !! js "result")
  | _ => VUndefined
  end.

Inductive exn :=
| FetchError                  (* fetch rejected *)
| ServerError (status : N)    (* thrown at line 161 *)
| JsonError                   (* response.json() rejected *)
| TypeError.                  (* text.replace is not a function *)

(** [parseMarkdown] applied to an arbitrary value: a falsy value returns the
    empty string, a string is rendered, any other value has no [replace]
    method. *)
Definition parseMarkdown_dyn (v : value) : exn + jsstring :=
  if negb (truthy v) then inr []
  else match v with
       | VString s => inr (parseMarkdown s)
       | _ => inl TypeError
       end.

Inductive role := User | Model.

Record turn := Turn { role_of : role; text_of : jsstring }.

(** A message element of the chat box: its role class and what was last
    assigned to it, through [textContent] or through [innerHTML]. *)
Inductive content :=
| TextContent (s : jsstring)
| InnerHTML (html : jsstring).

Record message := Message { msg_role : role; msg_body : content }.

(** What [fetch('/api/chat', ...)] and [response.json()] do: the fetch
    rejects, or it resolves with a status and a body that parses ([Some])
    or does not ([None]). *)
Inductive fetch_outcome :=
| FetchRejects
| Responds (status : N) (body : option value).

(** [response.ok] *)
Definition response_ok (status : N) : bool := (200 <=? status) && (status <=? 299).

Record page := Page {
  input_value : jsstring;               (* userInput.value *)
  input_disabled : bool;                (* userInput.disabled *)
  submit_disabled : bool;               (* submitButton.disabled *)
  input_focused : bool;                 (* userInput.focus() was the last focus change *)
  chatBox : list message;               (* children of the chat box *)
  conversationHelper : list turn;
  requests : list (list turn);          (* conversations POSTed to /api/chat *)
  console : list exn;                   (* console.error *)
  data_theme : jsstring;                (* body[data-theme] *)
  toggle_text : jsstring;               (* themeToggle.textContent *)
  localStorage : gmap jsstring jsstring
}.

(** *** A state and exception monad for the handlers *)

Definition M (A : Type) : Type := page -> (exn + A) * page.

#[local] Instance M_ret : MRet M := fun A a p => (inr a, p).
#[local] Instance M_bind : MBind M := fun A B f m p =>
  match m p with
  | (inl e, p') => (inl e, p')
  | (inr a, p') => f a p'
  end.

Definition gets {A} (f : page -> A) : M A := fun p => (inr (f p), p).
Definition modify (f : page -> page) : M unit := fun p => (inr tt, f p).
Definition throw {A} (e : exn) : M A := fun p => (inl e, p).

(** [try { body } catch (error) { handler } finally { final }] *)
Definition try_catch_finally (body : M unit) (handler : exn -> M unit)
    (final : M unit) : M unit := fun p =>
  let '(r, p1) := match body p with
                  | (inl e, p') => handler e p'
                  | (inr a, p') => (inr a, p')
                  end in
  match final p1 with
  | (inl e, p2) => (inl e, p2)
  | (inr _, p2) => (r, p2)
  end.

Definition run (m : M unit) (p : page) : page := snd (m p).

(** *** Field updates *)

Definition set_input_value (v : jsstring) (p : page) : page :=
  Page v (input_disabled p) (submit_disabled p) (input_focused p) (chatBox p)
    (conversationHelper p) (requests p) (console p) (data_theme p)
    (toggle_text p) (localStorage p).

Definition set_disabled (b : bool) (p : page) : page :=
  Page (input_value p) b b (input_focused p) (chatBox p)
    (conversationHelper p) (requests p) (console p) (data_theme p)
    (toggle_text p) (localStorage p).

Definition set_focused (b : bool) (p : page) : page :=
  Page (input_value p) (input_disabled p) (submit_disabled p) b (chatBox p)
    (conversationHelper p) (requests p) (console p) (data_theme p)
    (toggle_text p) (localStorage p).

Definition set_chatBox (box : list message) (p : page) : page :=
  Page (input_value p) (input_disabled p) (submit_disabled p) (input_focused p) box
    (conversationHelper p) (requests p) (console p) (data_theme p)
    (toggle_text p) (localStorage p).

Definition set_conversation (c : list turn) (p : page) : page :=
  Page (input_value p) (input_disabled p) (submit_disabled p) (input_focused p)
    (chatBox p) c (requests p) (console p) (data_theme p)
    (toggle_text p) (localStorage p).

Definition set_requests (r : list (list turn)) (p : page) : page :=
  Page (input_value p) (input_disabled p) (submit_disabled p) (input_focused p)
    (chatBox p) (conversationHelper p) r (console p) (data_theme p)
    (toggle_text p) (localStorage p).

Definition set_console (c : list exn) (p : page) : page :=
  Page (input_value p) (input_disabled p) (submit_disabled p) (input_focused p)
    (chatBox p) (conversationHelper p) (requests p) c (data_theme p)
    (toggle_text p) (localStorage p).

Definition set_theme (theme icon : jsstring) (store : gmap jsstring jsstring)
    (p : page) : page :=
  Page (input_value p) (input_disabled p) (submit_disabled p) (input_focused p)
    (chatBox p) (conversationHelper p) (requests p) (console p) theme icon store.

(** *** Theme toggling *)

Definition SUN : jsstring := [9728; 65039].
Definition MOON : jsstring := [55356; 57113].

Definition theme_icon (theme : jsstring) : jsstring :=
  if decide (theme = js "dark") then SUN else MOON.

(** [localStorage.getItem('theme') || 'light'] *)
Definition savedTheme (store : gmap jsstring jsstring) : jsstring :=
  match store !! js "theme" with
  | Some v => if nonempty v then v else js "light"
  | None => js "light"
  end.

(** Lines 9 to 14: the state the script sets up when the document is
    loaded, from the page markup and the storage it finds. *)
Definition load (markup : page) (store : gmap jsstring jsstring) : page :=
  set_conversation []
    (set_theme (savedTheme store) (theme_icon (savedTheme store)) store markup).

(** The click handler of the theme toggle. *)
Definition toggle_click (p : page) : page :=
  let currentTheme := data_theme p in
  let newTheme := if decide (currentTheme = js "light") then js "dark" else js "light" in
  set_theme newTheme (theme_icon newTheme)
    (<[js "theme" := newTheme]> (localStorage p)) p.

(** *** The chat box *)

(** Layout is not modelled: scrolling leaves the state as it is. *)
Definition scrollToBottom : M unit := mret tt.

(** [chatBox.appendChild(div)]; the element is referred to afterwards by its
    position among the children. *)
Definition appendChild (div : message) : M nat := fun p =>
  (inr (length (chatBox p)), set_chatBox (chatBox p ++ [div]) p).

(** Assignment to [textContent] or [innerHTML] of the element at [i]. *)
Definition set_body (i : nat) (c : content) : M unit :=
  modify (fun p => set_chatBox (alter (fun m => Message (msg_role m) c) i (chatBox p)) p).

Definition addMessage (r : role) (t : jsstring) : M nat :=
  let body := match r with
              | Model => InnerHTML (parseMarkdown t)
              | User => TextContent t
              end in
  messageDiv ← appendChild (Message r body);
  scrollToBottom;;
  mret messageDiv.

Definition setFormState (disabled : bool) : M unit :=
  modify (set_disabled disabled);;
  if negb disabled then modify (set_focused true) else mret tt.

Definition push_turn (t : turn) : M unit :=
  modify (fun p => set_conversation (conversationHelper p ++ [t]) p).

(** *** The submit handler *)

Section Submit.

(** The backend, as seen from the page: what the request carrying a given
    conversation leads to. *)
Variable net : list turn -> fetch_outcome.

(** [await fetch(...)] then the status check and [await response.json()]. *)
Definition fetch_json : M value := fun p =>
  let p' := set_requests (requests p ++ [conversationHelper p]) p in
  match net (conversationHelper p) with
  | FetchRejects => (inl FetchError, p')
  | Responds status body =>
      if negb (response_ok status) then (inl (ServerError status), p')
      else match body with
           | None => (inl JsonError, p')
           | Some data => (inr data, p')
           end
  end.

Definition on_submit : M unit :=
  text ← gets (fun p => trim (input_value p));
  if negb (nonempty text) then mret tt
  else
    addMessage User text;;
    push_turn (Turn User text);;
    modify (set_input_value []);;
    setFormState true;;
    thinkingMessageDiv ← appendChild (Message Model (TextContent (js "Thinking...")));
    scrollToBottom;;
    try_catch_finally
      (data ← fetch_json;
       if truthy data && truthy (get_result data) then
         html ← (fun p => (parseMarkdown_dyn (get_result data), p));
         set_body thinkingMessageDiv (InnerHTML html);;
         match get_result data with
         | VString s => push_turn (Turn Model s)
         | _ => mret tt
         end
       else
         set_body thinkingMessageDiv (TextContent (js "Sorry, no response received.")))
      (fun error =>
         modify (fun p => set_console (console p ++ [error]) p);;
         set_body thinkingMessageDiv (TextContent (js "Failed to get response from server.")))
      (setFormState false;;
       scrollToBottom).

(** One submission, from the submit event to the end of the handler. *)
Definition submit (p : page) : page := run on_submit p.

End Submit.

(** ** Notions used in the statements *)

(** What a conversation looks like when it is displayed turn by turn the
    way [addMessage] shows a turn. *)
Definition shown (t : turn) : message :=
  Message (role_of t)
    match role_of t with
    | Model => InnerHTML (parseMarkdown (text_of t))
    | User => TextContent (text_of t)
    end.

Definition in_sync (p : page) : Prop :=
  chatBox p = shown <$> conversationHelper p.

Definition failure_text : jsstring := js "Failed to get response from server.".
Definition no_response_text : jsstring := js "Sorry, no response received.".

(** The conversation that the request of a submission carries. *)
Definition sent (p : page) : list turn :=
  conversationHelper p ++ [Turn User (trim (input_value p))].

(** The fetch threw, or it resolved with a status outside 200..299. *)
Definition transport_failed (o : fetch_outcome) : bool :=
  match o with
  | FetchRejects => true
  | Responds status _ => negb (response_ok status)
  end.

(** The fetch resolved with a success status and a JSON body whose
    [result] field is the string [s]. *)
Definition result_string (o : fetch_outcome) : option jsstring :=
  match o with
  | Responds status (Some data) =>
      if response_ok status && truthy data then
        match get_result data with
        | VString s => Some s
        | _ => None
        end
      else None
  | _ => None
  end.

Definition other_theme (theme : jsstring) : jsstring :=
  if decide (theme = js "light") then js "dark" else js "light".

(** Concrete pages and backends. *)
Definition hello_page : page :=
  Page (js " Hello ") false false true [] [] [] [] (js "light") MOON ∅.

Definition net_down : list turn -> fetch_outcome := fun _ => FetchRejects.
Definition net_status (status : N) : list turn -> fetch_outcome :=
  fun _ => Responds status None.
Definition net_reply (s : jsstring) : list turn -> fetch_outcome :=
  fun _ => Responds 200 (Some (VObject {[ js "result" := VString s ]})).

Definition blank_page : page :=
  Page (js "   ") false false true [] [] [] [] (js "light") MOON ∅.

Definition dark_page : page :=
  Page [] false false false [] [] [] [] (js "dark") SUN {[ js "theme" := js "dark" ]}.

(** *** Notions about the matcher *)

(** The matcher state after the characters [w] have been consumed, and the
    character before the position behind them. *)
Definition eats (w : jsstring) (st : mstate) : mstate :=
  foldl (fun st d => eat d st) st w.

Definition prev_at (prev : option char) (w : jsstring) : option char :=
  foldl (fun _ d => Some d) prev w.

(** What a successful run of a pattern amounts to, without the order in
    which the alternatives are tried: each term accounts for a piece of the
    input. *)
Fixpoint sem (r : regex) (prev : option char) (s : jsstring) (st : mstate)
    (res : result) : Prop :=
  match r with
  | [] => res = (m_len st, m_cap st)
  | Chr c :: r' =>
      exists t, s = c :: t /\ sem r' (Some c) t (eat c st) res
  | StarG p :: r' | StarL p :: r' =>
      exists w t, s = w ++ t /\ forallb p w = true /\
                  sem r' (prev_at prev w) t (eats w st) res
  | PlusG p :: r' =>
      exists d w t, s = d :: w ++ t /\ p d = true /\ forallb p w = true /\
                    sem r' (prev_at (Some d) w) t (eats w (eat d st)) res
  | Bol :: r' => at_line_start prev = true /\ sem r' prev s st res
  | Eol :: r' => at_line_end s = true /\ sem r' prev s st res
  | Open :: r' => sem r' prev s (open_group st) res
  | Close :: r' => sem r' prev s (close_group st) res
  end.

(** *** Safe markup *)

(** The three entity references that step 1 generates. *)
Inductive entity := EAmp | ELt | EGt.

Definition entity_ref (e : entity) : jsstring :=
  match e with
  | EAmp => js "&amp;"
  | ELt => js "&lt;"
  | EGt => js "&gt;"
  end.

(** The entity that stands for a character of the input, if it is one of
    the three markup-significant characters. *)
Definition entity_of (c : char) : option entity :=
  if c =? ch "&" then Some EAmp
  else if c =? ch "<" then Some ELt
  else if c =? ch ">" then Some EGt
  else None.

(** The markup-significant characters of a text, in order, each as the
    entity that has to stand for it. *)
Definition specials (text : jsstring) : list entity := omap entity_of text.

(** The tags that [parseMarkdown] generates. *)
Definition tags : list jsstring :=
  [js "<strong>"; js "</strong>"; js "<em>"; js "</em>";
   js "<li>"; js "</li>"; js "<ul>"; js "</ul>"; js "<p>"; js "</p>"].

(** [markup s es]: the string [s] is a sequence of characters other than
    [&], [<] and [>], of generated tags and of entity references, and [es]
    lists its entity references in order.  In such a string the three
    characters occur only inside a generated tag or an entity reference. *)
Inductive markup : jsstring -> list entity -> Prop :=
| markup_nil : markup [] []
| markup_char c s es :
    entity_of c = None -> markup s es -> markup (c :: s) es
| markup_tag t s es :
    In t tags -> markup s es -> markup (t ++ s) es
| markup_entity e s es :
    markup s es -> markup (entity_ref e ++ s) (e :: es).

(** The characters that occur in a tag or in an entity reference. *)
Definition token_chars : jsstring :=
  concat (entity_ref EAmp :: entity_ref ELt :: entity_ref EGt :: tags).

(** The characters that the four patterns of steps 2 to 5 consume outside
    their capture group: the star, white space and line terminators, the
    hyphen, the digits and the period. *)
Definition delim (c : char) : bool :=
  (c =? ch "*") || isSpace c || (c =? ch "-") || isDigit c || (c =? ch ".").

(** The shape of a match of one of the four patterns at the start of [s]:
    delimiters, the captured text, delimiters; when no delimiter follows the
    capture, the match ends at the end of a line. *)
Definition delimited (s : jsstring) (n : nat) (cap : option jsstring) : Prop :=
  exists a c b rest,
    s = a ++ c ++ b ++ rest /\ n = length (a ++ c ++ b) /\ cap = Some c /\
    a <> [] /\ forallb delim a = true /\ forallb delim b = true /\
    forallb isDot c = true /\
    (b = [] -> at_line_end rest = true).

(** Step 1 done character by character. *)
Definition escape_char (c : char) : jsstring :=
  match entity_of c with
  | Some e => entity_ref e
  | None => [c]
  end.

(** *** Lines that carry a list-item marker *)

(** A list-item marker: a hyphen, or digits followed by a period. *)
Inductive marker :=
| Hyphen
| Numbered (digits : jsstring).

Definition marker_text (m : marker) : jsstring :=
  match m with
  | Hyphen => [ch "-"]
  | Numbered digits => digits ++ [ch "."]
  end.

Definition wf_marker (m : marker) : bool :=
  match m with
  | Hyphen => true
  | Numbered digits => nonempty digits && forallb isDigit digits
  end.

(** A line of the input that carries a list-item marker: indentation, the
    marker, white space and the text of the item. *)
Record list_line := ListLine {
  indent : jsstring;
  mark : marker;
  gap : jsstring;
  item : jsstring
}.

Definition source_line (l : list_line) : jsstring :=
  indent l ++ marker_text (mark l) ++ gap l ++ item l.

(** The text begins with a character that is not white space. *)
Definition starts_with_text (s : jsstring) : bool :=
  match s with
  | [] => false
  | c :: _ => negb (isSpace c)
  end.

(** The parts of the line stay on the line (no line terminator), the gap
    is not empty and the item has a text. *)
Definition wf_line (l : list_line) : bool :=
  forallb isWhiteSpace (indent l) && wf_marker (mark l) &&
  nonempty (gap l) && forallb isWhiteSpace (gap l) &&
  starts_with_text (item l) && forallb isDot (item l).

(** [lines.join('\n')] *)
Fixpoint join_lines (lines : list jsstring) : jsstring :=
  match lines with
  | [] => []
  | [l] => l
  | l :: ls => l ++ LF :: join_lines ls
  end.

(** The list item that a line is rendered as: its text, escaped and with
    its emphasis, between the tags of a list item. *)
Definition rendered_item (l : list_line) : jsstring :=
  js "<li>" ++ italic (bold (escapeHtml (item l))) ++ js "</li>".

(** The number of positions of [s] at which [sub] occurs. *)
Fixpoint occurrences (sub s : jsstring) : nat :=
  match s with
  | [] => 0%nat
  | _ :: t => ((if startsWith sub s then 1 else 0) + occurrences sub t)%nat
  end.

(** The pattern of step 3 with a greedy group, for comparison. *)
Definition italic_greedy_re : regex :=
  [Chr (ch "*"); Open; StarG isDot; Close; Chr (ch "*")].

Definition one_two : jsstring := js "- one" ++ [LF] ++ js "- two".
Definition empty_item_then_two : jsstring := js "- " ++ [LF] ++ js "- two".

(** *** Notions about patterns *)

(** The next character, if any, is not in the class: a repetition of the
    class stops here. *)
Definition stops (p : char -> bool) (s : jsstring) : bool :=
  match s with
  | [] => true
  | c :: _ => negb (p c)
  end.

(** A pattern without [^] and [$] none of whose terms accepts a line feed:
    its matches stay within a line and do not depend on the context. *)
Definition local_node (nd : node) : bool :=
  match nd with
  | Chr c => negb (c =? LF)
  | StarG p | StarL p | PlusG p => negb (p LF)
  | Bol | Eol => false
  | Open | Close => true
  end.

Definition local_re (r : regex) : bool := forallb local_node r.

(** The part of a line in front of the text of the item. *)
Definition header (l : list_line) : jsstring :=
  indent l ++ marker_text (mark l) ++ gap l.

(** The characters a header is made of. *)
Definition header_char (c : char) : bool :=
  isSpace c || (c =? ch "-") || isDigit c || (c =? ch ".").

(** As [wf_line], but the white space in front of the marker may hold line
    terminators: blank lines in front of the line count as its
    indentation. *)
Definition loose_line (l : list_line) : bool :=
  forallb isSpace (indent l) && wf_marker (mark l) &&
  nonempty (gap l) && forallb isWhiteSpace (gap l) &&
  starts_with_text (item l) && forallb isDot (item l).


(** What step 4 or 5, with the pattern [^] followed by [r], does to one
    line [L] that stands at the start of a line and is followed by the end
    of the text or by a line end: it leaves [L'] and resumes behind the
    line, which does not end in a line terminator. *)
Definition line_step (r : regex) (tpl : template) (L L' : jsstring) : Prop :=
  L <> [] /\
  (forall prev, at_line_start (prev_at prev L) = false) /\
  forall prev T,
    at_line_start prev = true -> at_line_end T = true ->
    scan (Bol :: r) tpl prev (L ++ T) 0 =
    L' ++ scan (Bol :: r) tpl (prev_at prev L) T 0.

(** Steps 1 to 3 on a text. *)
Definition inline (s : jsstring) : jsstring := italic (bold (escapeHtml s)).

(** A line whose item has gone through steps 1 to 3. *)
Definition processed (l : list_line) : list_line :=
  ListLine (indent l) (mark l) (gap l) (inline (item l)).

Definition li_item (l : list_line) : jsstring :=
  js "<li>" ++ item l ++ js "</li>".

(** A line after step 4: only the lines with a hyphen have become items. *)
Definition after_ulist (l : list_line) : jsstring :=
  match mark l with
  | Hyphen => li_item l
  | Numbered _ => source_line l
  end.

Definition one_two_lines : list list_line :=
  [ListLine [] Hyphen (js " ") (js "one"); ListLine [] Hyphen (js " ") (js "two")].

Definition empty_item_lines : list list_line :=
  [ListLine [] Hyphen (js " ") []; ListLine [] Hyphen (js " ") (js "two")].

Definition a_b_lines : list list_line :=
  [ListLine [] Hyphen (js " ") (js "a"); ListLine [] Hyphen (js " ") (js "b")].

(** ** Notions used in the further properties *)

(** The exception that the [try] block of the submit handler raises on an
    outcome of the fetch, if it raises one: the fetch rejected, the status
    check threw, the body did not parse, or the result was a truthy value
    without a [replace] method. *)
Definition raised (o : fetch_outcome) : option exn :=
  match o with
  | FetchRejects => Some FetchError
  | Responds status body =>
      if negb (response_ok status) then Some (ServerError status)
      else match body with
           | None => Some JsonError
           | Some data =>
               if truthy data && truthy (get_result data) then
                 match get_result data with
                 | VString _ => None
                 | _ => Some TypeError
                 end
               else None
           end
  end.

(** The fetch resolved with a success status and a body that parses, but
    the body is falsy or its [result] is. *)
Definition lacks_result (o : fetch_outcome) : bool :=
  match o with
  | Responds status (Some data) =>
      response_ok status && negb (truthy data && truthy (get_result data))
  | _ => false
  end.

(** The page at the end of a submission with non-blank input, by what the
    placeholder ends up showing, what the store holds and what was logged. *)
Definition cycle_end (p : page) (body : content) (store : list turn)
    (log : list exn) : page :=
  Page [] false false true
    (chatBox p ++ [Message User (TextContent (trim (input_value p)));
                   Message Model body])
    store (requests p ++ [sent p]) log
    (data_theme p) (toggle_text p) (localStorage p).

(** The user types into the input box. *)
Definition type_text (t : jsstring) (p : page) : page := set_input_value t p.

(** A message whose content was assigned through [innerHTML] holds safe
    markup. *)
Definition safe_message (m : message) : Prop :=
  match msg_body m with
  | InnerHTML html => exists es, markup html es
  | TextContent _ => True
  end.

(** The displayed theme is one of the two values, it is the persisted
    value and the toggle shows its icon. *)
Definition theme_settled (p : page) : Prop :=
  (data_theme p = js "light" \/ data_theme p = js "dark") /\
  localStorage p !! js "theme" = Some (data_theme p) /\
  toggle_text p = theme_icon (data_theme p).

Definition blue_store : gmap jsstring jsstring := {[ js "theme" := js "blue" ]}.

Definition typed_page : page :=
  Page (js "Hi") false false true
    [Message User (TextContent (js "old"))] [Turn User (js "old")] [] []
    (js "light") MOON ∅.

Definition net_body (body : option value) : list turn -> fetch_outcome :=
  fun _ => Responds 200 body.

(** *** Lines of running text *)

(** The first character of a line of running text: not white space, not a
    hyphen and not a digit, so that no list pattern applies to the line. *)
Definition plain_first (c : char) : bool :=
  negb (isSpace c) && negb (c =? ch "-") && negb (isDigit c).

Definition no_star (s : jsstring) : bool :=
  forallb (fun c => negb (c =? ch "*")) s.

(** A line of running text: leading white space and a text, without
    emphasis markers. *)
Record plain_line := PlainLine {
  lead : jsstring;
  body : jsstring
}.

Definition plain_source (l : plain_line) : jsstring := lead l ++ body l.

Definition wf_plain (l : plain_line) : bool :=
  forallb isWhiteSpace (lead l) &&
  match body l with
  | c :: _ => plain_first c
  | [] => false
  end &&
  forallb isDot (body l) && no_star (body l).

(** The line as the line walk sees it, and the paragraph it becomes. *)
Definition plain_rendered (l : plain_line) : jsstring :=
  lead l ++ escapeHtml (body l).

Definition paragraph (l : plain_line) : jsstring :=
  js "<p>" ++ plain_rendered l ++ js "</p>".

(** Steps 1 to 5 turn the line [L], where it stands as a line of a text,
    into [L']. *)
Definition renders (L L' : jsstring) : Prop :=
  exists M,
    line_step [StarG isSpace; Chr (ch "-"); PlusG isSpace; Open;
               StarG isDot; Close; Eol] li_tpl (inline L) M /\
    line_step [StarG isSpace; PlusG isDigit; Chr (ch "."); PlusG isSpace;
               Open; StarG isDot; Close; Eol] li_tpl M L' /\
    ~ In LF L'.

Definition two_paragraphs : list plain_line :=
  [PlainLine [] (js "a < b"); PlainLine (js "  ") (js "tail & more")].

Definition mixed_numbered : list list_line :=
  [ListLine (js "  ") (Numbered (js "12")) (js " ") (js "one");
   ListLine [] Hyphen (js "   ") (js "*two*")].

Definition mixed_hyphen : list list_line :=
  [ListLine [] Hyphen (js " ") (js "one");
   ListLine (js " ") (Numbered (js "7")) (js " ") (js "*two*")].

(** * Proofs *)

(** ** Properties of the handlers *)

#[local] Arguments ch : simpl never.
#[local] Arguments truthy !_ /.
#[local] Arguments nonempty !_ /.

Ltac page_simpl :=
  cbn [snd fst negb andb nonempty truthy
       set_input_value set_disabled set_focused set_chatBox set_conversation
       set_requests set_console
       input_value input_disabled submit_disabled input_focused chatBox
       conversationHelper requests console data_theme toggle_text localStorage].

Ltac run_handler :=
  cbv beta iota zeta delta
    [submit run on_submit addMessage setFormState push_turn appendChild
     set_body scrollToBottom try_catch_finally fetch_json gets modify throw
     mbind mret M_bind M_ret];
  page_simpl.

Lemma alter_last_message (box : list message) (u m : message) (c : content) :
  alter (fun m => Message (msg_role m) c) (length (box ++ [u])) ((box ++ [u]) ++ [m])
  = box ++ [u; Message (msg_role m) c].
Proof.
  rewrite alter_app_r_alt by lia.
  replace (length (box ++ [u]) - length (box ++ [u]))%nat with 0%nat by lia.
  simpl. by rewrite <- app_assoc.
Qed.

Section SubmitFacts.

Variable net : list turn -> fetch_outcome.

Lemma submit_blank (p : page) :
  trim (input_value p) = [] -> submit net p = p.
Proof.
  intros H. run_handler. rewrite H. reflexivity.
Qed.

Lemma submit_failed (p : page) :
  trim (input_value p) <> [] ->
  transport_failed (net (sent p)) = true ->
  exists e,
    submit net p =
    Page [] false false true
      (chatBox p ++ [Message User (TextContent (trim (input_value p)));
                     Message Model (TextContent failure_text)])
      (sent p) (requests p ++ [sent p]) (console p ++ [e])
      (data_theme p) (toggle_text p) (localStorage p).
Proof.
  intros Hne Hnet. unfold sent in *. run_handler.
  destruct (trim (input_value p)) as [|c t] eqn:E; [done|]. page_simpl.
  destruct (net _) as [|status body]; simpl in Hnet.
  - exists FetchError. page_simpl. by rewrite alter_last_message.
  - exists (ServerError status). rewrite Hnet. page_simpl.
    by rewrite alter_last_message.
Qed.

Lemma submit_result (p : page) (s : jsstring) :
  trim (input_value p) <> [] ->
  result_string (net (sent p)) = Some s ->
  s <> [] ->
  submit net p =
  Page [] false false true
    (chatBox p ++ [Message User (TextContent (trim (input_value p)));
                   Message Model (InnerHTML (parseMarkdown s))])
    (sent p ++ [Turn Model s]) (requests p ++ [sent p]) (console p)
    (data_theme p) (toggle_text p) (localStorage p).
Proof.
  intros Hne Hnet Hs. unfold sent in *. run_handler.
  destruct (trim (input_value p)) as [|c t] eqn:E; [done|]. page_simpl.
  destruct (net _) as [|status [data|]]; simpl in Hnet; try done. page_simpl.
  destruct (response_ok status); simpl in Hnet; [|done]. page_simpl.
  destruct (truthy data); simpl in Hnet; [|done]. page_simpl.
  destruct (get_result data) as [| | | |s'| |] eqn:Hr; try done.
  injection Hnet as ->. page_simpl.
  destruct s as [|c' s']; [done|].
  unfold parseMarkdown_dyn. page_simpl.
  by rewrite alter_last_message.
Qed.

Lemma submit_empty_result (p : page) :
  trim (input_value p) <> [] ->
  result_string (net (sent p)) = Some [] ->
  submit net p =
  Page [] false false true
    (chatBox p ++ [Message User (TextContent (trim (input_value p)));
                   Message Model (TextContent no_response_text)])
    (sent p) (requests p ++ [sent p]) (console p)
    (data_theme p) (toggle_text p) (localStorage p).
Proof.
  intros Hne Hnet. unfold sent in *. run_handler.
  destruct (trim (input_value p)) as [|c t] eqn:E; [done|]. page_simpl.
  destruct (net _) as [|status [data|]]; simpl in Hnet; try done. page_simpl.
  destruct (response_ok status); simpl in Hnet; [|done]. page_simpl.
  destruct (truthy data); simpl in Hnet; [|done]. page_simpl.
  destruct (get_result data) as [| | | |s'| |] eqn:Hr; try done.
  injection Hnet as ->. page_simpl.
  by rewrite alter_last_message.
Qed.

Lemma submit_enabled (p : page) :
  trim (input_value p) <> [] ->
  input_disabled (submit net p) = false /\
  submit_disabled (submit net p) = false /\
  input_focused (submit net p) = true.
Proof.
  intros Hne. run_handler.
  destruct (trim (input_value p)) as [|c t] eqn:E; [done|]. page_simpl.
  destruct (net _) as [|status [data|]]; page_simpl.
  - done.
  - destruct (response_ok status); page_simpl; [|done].
    destruct (truthy data); page_simpl; [|done].
    destruct (truthy (get_result data)); page_simpl; [|done].
    destruct (parseMarkdown_dyn (get_result data)); page_simpl; [done|].
    by destruct (get_result data).
  - by destruct (response_ok status).
Qed.

End SubmitFacts.

(** ** The claims about the submit handler and the theme toggle *)

(** C2, as stated, fails for the empty string: a success response whose
    result is the empty string takes the branch of the missing result, so
    the placeholder shows the no-response text and no model turn is
    stored. *)
Lemma C2_empty_result_counterexample :
  result_string (net_reply [] (sent hello_page)) = Some [] /\
  chatBox (submit (net_reply []) hello_page) =
    [Message User (TextContent (js "Hello"));
     Message Model (TextContent no_response_text)] /\
  conversationHelper (submit (net_reply []) hello_page) = [Turn User (js "Hello")] /\
  ~ (chatBox (submit (net_reply []) hello_page) =
       chatBox hello_page ++
       [Message User (TextContent (js "Hello"));
        Message Model (InnerHTML (parseMarkdown []))] /\
     conversationHelper (submit (net_reply []) hello_page) =
       conversationHelper hello_page ++ [Turn User (js "Hello"); Turn Model []]).
Proof.
  assert (Hne : trim (input_value hello_page) <> []) by (vm_compute; discriminate).
  assert (Hr : result_string (net_reply [] (sent hello_page)) = Some [])
    by reflexivity.
  rewrite (submit_empty_result _ _ Hne Hr).
  repeat split; try reflexivity.
  intros [H _]. discriminate H.
Qed.

(** C2 (amended): when the fetch resolves with a success status and a JSON
    body whose result field is a non-empty string, the placeholder's content
    becomes [parseMarkdown] of that string and the model turn with that
    string is appended to the conversation store, after the user turn. *)
Theorem C2_success_renders_and_stores
    (net : list turn -> fetch_outcome) (p : page) (s : jsstring) :
  trim (input_value p) <> [] ->
  result_string (net (sent p)) = Some s ->
  s <> [] ->
  chatBox (submit net p) =
    chatBox p ++ [Message User (TextContent (trim (input_value p)));
                  Message Model (InnerHTML (parseMarkdown s))] /\
  conversationHelper (submit net p) =
    conversationHelper p ++ [Turn User (trim (input_value p)); Turn Model s].
Proof.
  intros Hne Hr Hs. rewrite (submit_result net p s Hne Hr Hs).
  split; [reflexivity|]. unfold sent. cbn [conversationHelper].
  by rewrite <- app_assoc.
Qed.

Lemma C2_success_witness :
  trim (input_value hello_page) <> [] /\
  result_string (net_reply (js "**Hi**") (sent hello_page)) = Some (js "**Hi**") /\
  js "**Hi**" <> [] /\
  chatBox (submit (net_reply (js "**Hi**")) hello_page) =
    chatBox hello_page ++
    [Message User (TextContent (trim (input_value hello_page)));
     Message Model (InnerHTML (parseMarkdown (js "**Hi**")))] /\
  conversationHelper (submit (net_reply (js "**Hi**")) hello_page) =
    conversationHelper hello_page ++
    [Turn User (trim (input_value hello_page)); Turn Model (js "**Hi**")].
Proof.
  assert (H : trim (input_value hello_page) <> []) by (vm_compute; discriminate).
  assert (Hs : js "**Hi**" <> []) by (vm_compute; discriminate).
  split; [exact H|]. split; [reflexivity|]. split; [exact Hs|].
  exact (C2_success_renders_and_stores (net_reply (js "**Hi**")) hello_page
           (js "**Hi**") H eq_refl Hs).
Defined.

(** C3, as stated, fails on a failed cycle: display and store start in sync
    and empty; after a cycle whose fetch rejects the display holds two
    messages and the store one turn. *)
Lemma C3_failed_cycle_counterexample :
  in_sync hello_page /\
  length (chatBox (submit net_down hello_page)) = 2%nat /\
  length (conversationHelper (submit net_down hello_page)) = 1%nat /\
  ~ (in_sync (submit net_down hello_page) /\
     length (chatBox (submit net_down hello_page)) =
     length (conversationHelper (submit net_down hello_page))).
Proof.
  assert (Hne : trim (input_value hello_page) <> []) by (vm_compute; discriminate).
  destruct (submit_failed net_down hello_page Hne eq_refl) as [e ->].
  repeat split. intros [_ H]. discriminate H.
Qed.

(** C3 (amended): a cycle that succeeds with a non-empty string result keeps
    the displayed message list and the conversation store in sync and equal
    in length when they were so before.  On a failed cycle (the fetch throws
    or the status is not a success), from any state, the user turn is still
    appended to the store and no model turn is; the display gains two
    messages, the user message and the failure message, so display and
    store are not in sync afterwards and the lead of the display over the
    store has grown by one; from a state in sync the display ends exactly
    one element longer than the store. *)
Theorem C3_sync_after_cycle (net : list turn -> fetch_outcome) (p : page) :
  trim (input_value p) <> [] ->
  (in_sync p ->
   forall s, result_string (net (sent p)) = Some s -> s <> [] ->
     in_sync (submit net p) /\
     length (chatBox (submit net p)) = length (conversationHelper (submit net p))) /\
  (transport_failed (net (sent p)) = true ->
     conversationHelper (submit net p) =
       conversationHelper p ++ [Turn User (trim (input_value p))] /\
     chatBox (submit net p) =
       chatBox p ++ [Message User (TextContent (trim (input_value p)));
                     Message Model (TextContent failure_text)] /\
     ~ in_sync (submit net p) /\
     (length (chatBox (submit net p)) + length (conversationHelper p) =
      S (length (chatBox p) + length (conversationHelper (submit net p))))%nat /\
     (in_sync p ->
      length (chatBox (submit net p)) =
        S (length (conversationHelper (submit net p))))).
Proof.
  intros Hne. split.
  - intros Hsync s Hr Hs. unfold in_sync in *.
    rewrite (submit_result net p s Hne Hr Hs).
    cbn [chatBox conversationHelper]. unfold sent.
    assert (E : chatBox p ++
                [Message User (TextContent (trim (input_value p)));
                 Message Model (InnerHTML (parseMarkdown s))] =
                shown <$> ((conversationHelper p ++
                  [Turn User (trim (input_value p))]) ++ [Turn Model s])).
    { rewrite !fmap_app, Hsync, <- app_assoc. reflexivity. }
    split; [exact E|]. rewrite E. by rewrite length_fmap.
  - intros Hf. destruct (submit_failed net p Hne Hf) as [e ->].
    unfold in_sync. cbn [chatBox conversationHelper]. unfold sent.
    split; [reflexivity|]. split; [reflexivity|]. split; [|split].
    + rewrite fmap_app.
      change [Message User (TextContent (trim (input_value p)));
              Message Model (TextContent failure_text)]
        with ([Message User (TextContent (trim (input_value p)))] ++
              [Message Model (TextContent failure_text)]).
      rewrite app_assoc. intros H. apply app_inj_tail in H as [_ H].
      discriminate H.
    + rewrite !length_app. simpl. lia.
    + intros Hsync. rewrite Hsync, !length_app, length_fmap. simpl. lia.
Qed.

Lemma C3_sync_witness :
  trim (input_value hello_page) <> [] /\
  in_sync hello_page /\
  in_sync (submit (net_reply (js "**Hi**")) hello_page) /\
  length (chatBox (submit (net_reply (js "**Hi**")) hello_page)) =
    length (conversationHelper (submit (net_reply (js "**Hi**")) hello_page)) /\
  conversationHelper (submit (net_status 500) hello_page) =
    conversationHelper hello_page ++ [Turn User (trim (input_value hello_page))] /\
  length (chatBox (submit (net_status 500) hello_page)) =
    S (length (conversationHelper (submit (net_status 500) hello_page))) /\
  trim (input_value (type_text (js "again") (submit net_down hello_page))) <> [] /\
  ~ in_sync (type_text (js "again") (submit net_down hello_page)) /\
  chatBox (submit net_down (type_text (js "again") (submit net_down hello_page))) =
    chatBox (type_text (js "again") (submit net_down hello_page)) ++
    [Message User (TextContent (js "again"));
     Message Model (TextContent failure_text)] /\
  length (chatBox
            (submit net_down (type_text (js "again") (submit net_down hello_page)))) =
    4%nat /\
  length (conversationHelper
            (submit net_down (type_text (js "again") (submit net_down hello_page)))) =
    2%nat.
Proof.
  assert (H : trim (input_value hello_page) <> []) by (vm_compute; discriminate).
  assert (Hs : js "**Hi**" <> []) by (vm_compute; discriminate).
  assert (H0 : in_sync hello_page) by reflexivity.
  assert (H' : trim (input_value (type_text (js "again") (submit net_down hello_page)))
               <> []) by (vm_compute; discriminate).
  split; [exact H|]. split; [exact H0|].
  destruct (C3_sync_after_cycle (net_reply (js "**Hi**")) hello_page H) as [Hok _].
  destruct (Hok H0 (js "**Hi**") eq_refl Hs) as [H1 H2].
  split; [exact H1|]. split; [exact H2|].
  destruct (C3_sync_after_cycle (net_status 500) hello_page H) as [_ Hfail].
  destruct (Hfail eq_refl) as (H3 & _ & _ & _ & H4).
  split; [exact H3|]. split; [exact (H4 H0)|].
  destruct (C3_sync_after_cycle net_down hello_page H) as [_ Hfail1].
  destruct (Hfail1 eq_refl) as (_ & _ & H5 & _).
  split; [exact H'|]. split; [exact H5|].
  destruct (C3_sync_after_cycle net_down
              (type_text (js "again") (submit net_down hello_page)) H')
    as [_ Hfail2].
  destruct (Hfail2 eq_refl) as (_ & H6 & _).
  split; [exact H6|]. rewrite H6. split; vm_compute; reflexivity.
Defined.

(** C4: when the fetch throws or resolves with a non-success status, the
    placeholder ends up showing the fixed failure message, the conversation
    store after the cycle is the store before it plus the one user turn (no
    model turn), and both controls are enabled again. *)
Theorem C4_failure_keeps_store (net : list turn -> fetch_outcome) (p : page) :
  trim (input_value p) <> [] ->
  transport_failed (net (sent p)) = true ->
  chatBox (submit net p) =
    chatBox p ++ [Message User (TextContent (trim (input_value p)));
                  Message Model (TextContent failure_text)] /\
  conversationHelper (submit net p) =
    conversationHelper p ++ [Turn User (trim (input_value p))] /\
  input_disabled (submit net p) = false /\
  submit_disabled (submit net p) = false.
Proof.
  intros Hne Hf. destruct (submit_failed net p Hne Hf) as [e ->].
  repeat split.
Qed.

Lemma C4_failure_witness :
  trim (input_value hello_page) <> [] /\
  transport_failed (net_status 500 (sent hello_page)) = true /\
  chatBox (submit (net_status 500) hello_page) =
    chatBox hello_page ++
    [Message User (TextContent (trim (input_value hello_page)));
     Message Model (TextContent failure_text)] /\
  conversationHelper (submit (net_status 500) hello_page) =
    conversationHelper hello_page ++ [Turn User (trim (input_value hello_page))] /\
  input_disabled (submit (net_status 500) hello_page) = false /\
  submit_disabled (submit (net_status 500) hello_page) = false.
Proof.
  assert (H : trim (input_value hello_page) <> []) by (vm_compute; discriminate).
  split; [exact H|]. split; [reflexivity|].
  exact (C4_failure_keeps_store (net_status 500) hello_page H eq_refl).
Defined.

(** C7: when the value of the input box trims to the empty string, the
    submission changes nothing: the page after the handler is the page
    before it, so no turn is stored, no message or placeholder is displayed,
    no request is issued and the controls stay as they were. *)
Theorem C7_blank_input_noop (net : list turn -> fetch_outcome) (p : page) :
  trim (input_value p) = [] ->
  submit net p = p /\
  conversationHelper (submit net p) = conversationHelper p /\
  chatBox (submit net p) = chatBox p /\
  requests (submit net p) = requests p /\
  input_disabled (submit net p) = input_disabled p /\
  submit_disabled (submit net p) = submit_disabled p.
Proof.
  intros H. rewrite (submit_blank net p H). repeat split.
Qed.

Lemma C7_blank_input_witness :
  trim (input_value blank_page) = [] /\
  submit net_down blank_page = blank_page /\
  requests (submit net_down blank_page) = [] /\
  input_disabled (submit net_down blank_page) = false.
Proof.
  assert (H : trim (input_value blank_page) = []) by reflexivity.
  split; [exact H|].
  destruct (C7_blank_input_noop net_down blank_page H) as (H1 & _ & _ & H2 & H3 & _).
  split; [exact H1|]. split; [exact H2|exact H3].
Defined.

(** C8: for every submission with non-whitespace input and whatever the
    backend does (result, no result, rejected fetch, non-success status,
    unparsable body), at the end of the cycle the input and the submit
    button are enabled and the input has been given the focus. *)
Theorem C8_controls_reenabled (net : list turn -> fetch_outcome) (p : page) :
  trim (input_value p) <> [] ->
  input_disabled (submit net p) = false /\
  submit_disabled (submit net p) = false /\
  input_focused (submit net p) = true.
Proof.
  apply submit_enabled.
Qed.

Lemma C8_controls_witness :
  trim (input_value hello_page) <> [] /\
  input_disabled (submit net_down hello_page) = false /\
  submit_disabled (submit net_down hello_page) = false /\
  input_focused (submit net_down hello_page) = true.
Proof.
  assert (H : trim (input_value hello_page) <> []) by (vm_compute; discriminate).
  split; [exact H|].
  exact (C8_controls_reenabled net_down hello_page H).
Defined.

(** C9: on the two-valued domain the toggle is an involution.  From a page
    whose displayed theme and persisted theme are the same value, light or
    dark, one click flips the displayed theme to the other value and writes
    that value to the store; two clicks give back the displayed theme, the
    toggle's icon and the persisted value, and the store itself when it
    already held the value. *)
Theorem C9_toggle_involution (p : page) (v : jsstring) :
  v = js "light" \/ v = js "dark" ->
  data_theme p = v ->
  savedTheme (localStorage p) = v ->
  (data_theme (toggle_click p) = other_theme v /\
   other_theme v <> v /\
   localStorage (toggle_click p) !! js "theme" = Some (other_theme v) /\
   savedTheme (localStorage (toggle_click p)) = other_theme v) /\
  (data_theme (toggle_click (toggle_click p)) = v /\
   toggle_text (toggle_click (toggle_click p)) = theme_icon v /\
   savedTheme (localStorage (toggle_click (toggle_click p))) = v /\
   (localStorage p !! js "theme" = Some v ->
    localStorage (toggle_click (toggle_click p)) = localStorage p)).
Proof.
  intros Hv Ht Hs.
  assert (Hne : js "dark" <> js "light") by (vm_compute; discriminate).
  unfold toggle_click, set_theme, other_theme, savedTheme, theme_icon.
  cbn [data_theme localStorage toggle_text]. rewrite Ht.
  rewrite insert_insert_eq, !lookup_insert_eq.
  destruct Hv as [-> | ->]; repeat case_decide; try congruence.
  - repeat split; try done. intros Hl. by apply insert_id.
  - repeat split; try done. intros Hl. by apply insert_id.
Qed.

Lemma C9_toggle_witness :
  (js "dark" = js "light" \/ js "dark" = js "dark") /\
  data_theme dark_page = js "dark" /\
  savedTheme (localStorage dark_page) = js "dark" /\
  data_theme (toggle_click dark_page) = js "light" /\
  data_theme (toggle_click (toggle_click dark_page)) = js "dark" /\
  savedTheme (localStorage (toggle_click (toggle_click dark_page))) = js "dark".
Proof.
  assert (H1 : js "dark" = js "light" \/ js "dark" = js "dark") by (right; reflexivity).
  assert (H2 : data_theme dark_page = js "dark") by reflexivity.
  assert (H3 : savedTheme (localStorage dark_page) = js "dark") by reflexivity.
  split; [exact H1|]. split; [exact H2|]. split; [exact H3|].
  destruct (C9_toggle_involution dark_page (js "dark") H1 H2 H3)
    as [(Ha & _) (Hb & _ & Hc & _)].
  split; [exact Ha|]. split; [exact Hb|exact Hc].
Defined.

(** ** The matcher *)

Section Matcher.

Lemma eats_len (w : jsstring) (st : mstate) :
  m_len (eats w st) = (m_len st + length w)%nat.
Proof.
  revert st. induction w as [|d w IH]; intros st; simpl; [lia|].
  rewrite IH. simpl. lia.
Qed.

Lemma eats_cap (w : jsstring) (st : mstate) :
  m_cap (eats w st) = m_cap st.
Proof.
  revert st. induction w as [|d w IH]; intros st; simpl; [done|].
  by rewrite IH.
Qed.

Lemma eats_open (w : jsstring) (st : mstate) :
  m_open (eats w st) = (fun o => reverse w ++ o) <$> m_open st.
Proof.
  revert st. induction w as [|d w IH]; intros st; simpl.
  - by destruct (m_open st).
  - rewrite IH. simpl. destruct (m_open st); simpl; [|done].
    by rewrite reverse_cons, <- app_assoc.
Qed.

Lemma eats_app (w1 w2 : jsstring) (st : mstate) :
  eats (w1 ++ w2) st = eats w2 (eats w1 st).
Proof. unfold eats. apply foldl_app. Qed.

Lemma prev_at_app (w1 w2 : jsstring) (prev : option char) :
  prev_at prev (w1 ++ w2) = prev_at (prev_at prev w1) w2.
Proof. unfold prev_at. apply foldl_app. Qed.

Lemma greedy_sound (p : char -> bool) (k : cont) (s : jsstring) :
  forall prev st res,
    greedy p k prev s st = Some res ->
    exists w t, s = w ++ t /\ forallb p w = true /\
                k (prev_at prev w) t (eats w st) = Some res.
Proof.
  induction s as [|d s IH]; intros prev st res H; simpl in H.
  - by exists [], [].
  - destruct (p d) eqn:Hp.
    + destruct (greedy p k (Some d) s (eat d st)) as [r|] eqn:Hg.
      * injection H as ->. destruct (IH _ _ _ Hg) as (w & t & -> & Hw & Hk).
        exists (d :: w), t. simpl. by rewrite Hp.
      * by exists [], (d :: s).
    + by exists [], (d :: s).
Qed.

Lemma lazy_sound (p : char -> bool) (k : cont) (s : jsstring) :
  forall prev st res,
    lazy p k prev s st = Some res ->
    exists w t, s = w ++ t /\ forallb p w = true /\
                k (prev_at prev w) t (eats w st) = Some res.
Proof.
  induction s as [|d s IH]; intros prev st res H; simpl in H.
  - destruct (k prev [] st) as [r|] eqn:Hk; [|done].
    injection H as ->. by exists [], [].
  - destruct (k prev (d :: s) st) as [r|] eqn:Hk.
    + injection H as ->. by exists [], (d :: s).
    + destruct (p d) eqn:Hp; [|done].
      destruct (IH _ _ _ H) as (w & t & -> & Hw & Hk').
      exists (d :: w), t. simpl. by rewrite Hp.
Qed.

Lemma mseq_sound (r : regex) :
  forall prev s st res, mseq r prev s st = Some res -> sem r prev s st res.
Proof.
  induction r as [|nd r IH]; intros prev s st res H.
  - simpl in *. congruence.
  - destruct nd as [c|p|p|p| | | |]; simpl in H |- *.
    + destruct s as [|d t]; [done|].
      destruct (N.eqb_spec c d) as [->|]; [|done]. eauto.
    + destruct (greedy_sound _ _ _ _ _ _ H) as (w & t & -> & Hw & Hk). eauto 6.
    + destruct (lazy_sound _ _ _ _ _ _ H) as (w & t & -> & Hw & Hk). eauto 6.
    + destruct s as [|d t]; [done|]. destruct (p d) eqn:Hp; [|done].
      destruct (greedy_sound _ _ _ _ _ _ H) as (w & t' & -> & Hw & Hk).
      exists d, w, t'. eauto.
    + destruct (at_line_start prev); [|done]. eauto.
    + destruct (at_line_end s); [|done]. eauto.
    + eauto.
    + eauto.
Qed.

End Matcher.

(** ** The shape of the matches of the four patterns *)

Section Shapes.

Ltac finish_shape :=
  repeat first
    [ rewrite eats_len | rewrite eats_open | rewrite eats_cap
    | progress cbn [m_len m_cap m_open eat open_group close_group
                    fmap option_fmap option_map] ].

Lemma bold_delimited prev s n cap :
  exec bold_re prev s = Some (n, cap) -> delimited s n cap.
Proof.
  intros H. apply mseq_sound in H. simpl in H.
  destruct H as (t1 & -> & t2 & -> & w & t3 & -> & Hw & t4 & E3 & t5 & -> & H).
  subst t3. revert H. finish_shape. intros [= -> ->].
  exists [ch "*"; ch "*"], w, [ch "*"; ch "*"], t5.
  rewrite app_nil_r, reverse_involutive.
  repeat split; try done. rewrite !length_app. simpl. lia.
Qed.

Lemma italic_delimited prev s n cap :
  exec italic_re prev s = Some (n, cap) -> delimited s n cap.
Proof.
  intros H. apply mseq_sound in H. simpl in H.
  destruct H as (t1 & -> & w & t3 & -> & Hw & t4 & -> & H).
  revert H. finish_shape. intros [= -> ->].
  exists [ch "*"], w, [ch "*"], t4.
  rewrite app_nil_r, reverse_involutive.
  repeat split; try done. rewrite !length_app. simpl. lia.
Qed.

Lemma forallb_space_delim (w : jsstring) :
  forallb isSpace w = true -> forallb delim w = true.
Proof.
  induction w as [|d w IH]; simpl; [done|].
  intros [Hd Hw]%andb_prop. rewrite IH by done. unfold delim. rewrite Hd.
  by rewrite orb_true_r.
Qed.

Lemma forallb_digit_delim (w : jsstring) :
  forallb isDigit w = true -> forallb delim w = true.
Proof.
  induction w as [|d w IH]; simpl; [done|].
  intros [Hd Hw]%andb_prop. rewrite IH by done. unfold delim. rewrite Hd.
  by rewrite !orb_true_r.
Qed.

Lemma ulist_delimited prev s n cap :
  exec ulist_re prev s = Some (n, cap) -> delimited s n cap.
Proof.
  intros H. apply mseq_sound in H. simpl in H.
  destruct H as (_ & w1 & t1 & -> & Hw1 & t2 & -> & d & w2 & t3 & -> & Hd & Hw2 &
                 w3 & t4 & -> & Hw3 & Hend & H).
  revert H. finish_shape. intros [= -> ->].
  exists (w1 ++ ch "-" :: d :: w2), w3, [], t4.
  rewrite !app_nil_r, reverse_involutive.
  repeat split; try done.
  - by rewrite <- !app_assoc.
  - rewrite ?length_app. simpl. rewrite ?length_app. simpl. lia.
  - by destruct w1.
  - rewrite forallb_app, (forallb_space_delim w1 Hw1). simpl.
    rewrite (forallb_space_delim w2 Hw2). unfold delim at 1. rewrite Hd.
    by rewrite orb_true_r.
Qed.

Lemma olist_delimited prev s n cap :
  exec olist_re prev s = Some (n, cap) -> delimited s n cap.
Proof.
  intros H. apply mseq_sound in H. simpl in H.
  destruct H as (_ & w1 & t1 & -> & Hw1 & g & w2 & t2 & -> & Hg & Hw2 & t3 & -> &
                 d & w3 & t4 & -> & Hd & Hw3 & w4 & t5 & -> & Hw4 & Hend & H).
  revert H. finish_shape. intros [= -> ->].
  exists (w1 ++ g :: w2 ++ ch "." :: d :: w3), w4, [], t5.
  rewrite !app_nil_r, reverse_involutive.
  repeat split; try done.
  - rewrite <- !app_assoc. simpl. by rewrite <- !app_assoc.
  - rewrite ?length_app. simpl. rewrite ?length_app. simpl.
    rewrite ?length_app. simpl. lia.
  - by destruct w1.
  - rewrite forallb_app, (forallb_space_delim w1 Hw1). simpl.
    rewrite forallb_app, (forallb_digit_delim w2 Hw2). simpl.
    rewrite (forallb_space_delim w3 Hw3).
    unfold delim at 1. rewrite Hg. unfold delim at 1. rewrite Hd.
    by rewrite !orb_true_r.
Qed.

End Shapes.

(** ** Global replacement *)

Section Scan.

Variables (r : regex) (tpl : template).

Lemma scan_skip (k : nat) :
  forall s prev, (k <= length s)%nat ->
    scan r tpl prev s k = scan r tpl (prev_at prev (take k s)) (drop k s) 0.
Proof.
  induction k as [|k IH]; intros s prev Hk.
  - by rewrite take_0, drop_0.
  - destruct s as [|c t]; simpl in Hk; [lia|].
    change (scan r tpl prev (c :: t) (S k)) with (scan r tpl (Some c) t k).
    rewrite IH by lia. reflexivity.
Qed.

(** A property of strings that every single replacement preserves, in any
    left context, is preserved by the global replacement. *)
Lemma scan_preserves (P : jsstring -> Prop) :
  (forall pre s prev n cap,
     P (pre ++ s) -> exec r prev s = Some (n, cap) ->
     (0 < n <= length s)%nat /\ P (pre ++ expand tpl cap ++ drop n s)) ->
  forall m s, (length s <= m)%nat ->
    forall pre prev, P (pre ++ s) -> P (pre ++ scan r tpl prev s 0).
Proof.
  intros Hstep. induction m as [|m IH]; intros s Hm pre prev HP.
  - destruct s; [|simpl in Hm; lia]. simpl.
    destruct (exec r prev []) as [[n cap]|] eqn:E; [|done].
    destruct (Hstep _ _ _ _ _ HP E) as [Hn _]. simpl in Hn. lia.
  - destruct s as [|c t].
    + simpl. destruct (exec r prev []) as [[n cap]|] eqn:E; [|done].
      destruct (Hstep _ _ _ _ _ HP E) as [Hn _]. simpl in Hn. lia.
    + simpl in Hm. simpl.
      destruct (exec r prev (c :: t)) as [[n cap]|] eqn:E.
      * destruct (Hstep _ _ _ _ _ HP E) as [Hn HP']. simpl in Hn.
        destruct n as [|k]; [lia|].
        rewrite scan_skip by lia. simpl in HP'.
        rewrite app_assoc in HP' |- *. apply IH; [|done].
        rewrite length_drop. lia.
      * rewrite cons_middle, app_assoc in HP.
        rewrite cons_middle, app_assoc. apply IH; [lia|done].
Qed.

Lemma replace_preserves (P : jsstring -> Prop) :
  (forall pre s prev n cap,
     P (pre ++ s) -> exec r prev s = Some (n, cap) ->
     (0 < n <= length s)%nat /\ P (pre ++ expand tpl cap ++ drop n s)) ->
  forall s, P s -> P (replace r tpl s).
Proof.
  intros Hstep s HP. unfold replace.
  apply (scan_preserves P Hstep (length s) s (le_n _) [] None HP).
Qed.

End Scan.

(** Replacing one character by a literal is a character-wise map. *)
Lemma replace_char (c : char) (l : jsstring) (s : jsstring) :
  replace [Chr c] [Lit l] s = flat_map (fun d => if c =? d then l else [d]) s.
Proof.
  unfold replace. generalize (@None char).
  induction s as [|d t IH]; intros prev; [done|].
  simpl. unfold exec. simpl. destruct (c =? d); simpl.
  - rewrite app_nil_r. by rewrite IH.
  - by rewrite IH.
Qed.

(** ** Safe markup is preserved by every step *)

Section Markup.

Lemma delim_not_token (c : char) : delim c = true -> ~ In c token_chars.
Proof.
  intros Hd Hin. vm_compute in Hin.
  repeat match goal with
         | H : _ \/ _ |- _ => destruct H as [<- | H]
         end; try (vm_compute in Hd; discriminate). done.
Qed.

Lemma delim_plain (c : char) : delim c = true -> entity_of c = None.
Proof.
  intros Hd. unfold entity_of.
  repeat match goal with
         | |- context [?a =? ?b] => destruct (N.eqb_spec a b) as [->|_]
         end; try done; vm_compute in Hd; discriminate.
Qed.

Lemma terminator_delim (c : char) : isLineTerminator c = true -> delim c = true.
Proof.
  intros H. unfold delim, isSpace. rewrite H. by rewrite !orb_true_r.
Qed.

Lemma tag_chars (t : jsstring) (c : char) :
  In t tags -> In c t -> In c token_chars.
Proof.
  intros Ht Hc. unfold token_chars. apply in_concat. exists t. split; [|done].
  by do 3 right.
Qed.

Lemma entity_chars (e : entity) (c : char) :
  In c (entity_ref e) -> In c token_chars.
Proof.
  intros Hc. unfold token_chars. apply in_concat. exists (entity_ref e).
  split; [|done]. destruct e; simpl; auto.
Qed.

Lemma app_cut (t s0 a b : jsstring) (c : char) :
  t ++ s0 = a ++ c :: b ->
  (exists a', a = t ++ a' /\ s0 = a' ++ c :: b) \/ In c t.
Proof.
  revert a. induction t as [|x t IH]; intros a H; simpl in *.
  - left. by exists a.
  - destruct a as [|y a]; simpl in H.
    + injection H as -> _. right. by left.
    + injection H as -> H. destruct (IH _ H) as [(a' & -> & ->) | Hin].
      * left. by exists a'.
      * right. by right.
Qed.

Lemma markup_app a e1 b e2 :
  markup a e1 -> markup b e2 -> markup (a ++ b) (e1 ++ e2).
Proof.
  intros Ha Hb. induction Ha as [|c s es Hc Hs IH|t s es Ht Hs IH|e s es Hs IH].
  - done.
  - simpl. by constructor.
  - rewrite <- app_assoc. by constructor.
  - rewrite <- app_assoc. simpl. by apply markup_entity.
Qed.

Lemma markup_tag_alone (t : jsstring) : In t tags -> markup t [].
Proof.
  intros Ht. rewrite <- (app_nil_r t). apply markup_tag; [done|constructor].
Qed.

(** A markup string can be cut at a character that occurs in no tag and in
    no entity reference. *)
Lemma markup_split (a b : jsstring) (c : char) (es : list entity) :
  markup (a ++ c :: b) es -> ~ In c token_chars ->
  exists e1 e2, es = e1 ++ e2 /\ markup a e1 /\ markup b e2.
Proof.
  intros H Hc. remember (a ++ c :: b) as s eqn:Es. revert a Es.
  induction H as [|c0 s es Hc0 Hs IH|t s es Ht Hs IH|e s es Hs IH]; intros a Es.
  - by destruct a.
  - destruct a as [|y a]; simpl in Es.
    + injection Es as -> ->. exists [], es. repeat split; [constructor|done].
    + injection Es as -> ->. destruct (IH a eq_refl) as (e1 & e2 & -> & H1 & H2).
      exists e1, e2. repeat split; [by constructor|done].
  - destruct (app_cut _ _ _ _ _ Es) as [(a' & -> & ->) | Hin].
    + destruct (IH a' eq_refl) as (e1 & e2 & -> & H1 & H2).
      exists e1, e2. repeat split; [by constructor|done].
    + destruct Hc. by apply (tag_chars t).
  - destruct (app_cut _ _ _ _ _ Es) as [(a' & -> & ->) | Hin].
    + destruct (IH a' eq_refl) as (e1 & e2 & -> & H1 & H2).
      exists (e :: e1), e2. repeat split; [by constructor|done].
    + destruct Hc. by apply (entity_chars e).
Qed.

Lemma markup_nil_inv (es : list entity) : markup [] es -> es = [].
Proof.
  intros H. remember (@nil char) as s eqn:Es.
  destruct H as [|c s es Hc Hs|t s es Ht Hs|e s es Hs]; try done.
  - apply app_eq_nil in Es as [-> _]. vm_compute in Ht.
    repeat destruct Ht as [Ht | Ht]; done.
  - by destruct e.
Qed.

(** Delimiters in front of a markup string can be dropped. *)
Lemma markup_strip (a s : jsstring) (es : list entity) :
  forallb delim a = true -> markup (a ++ s) es -> markup s es.
Proof.
  induction a as [|d a IH]; simpl; [done|].
  intros [Hd Ha]%andb_prop H.
  destruct (markup_split [] (a ++ s) d es H (delim_not_token d Hd))
    as (e1 & e2 & -> & H1 & H2).
  apply markup_nil_inv in H1 as ->. by apply IH.
Qed.

(** The text in front of a line end is cut off from what follows. *)
Lemma markup_split_eol (c rest : jsstring) (es : list entity) :
  at_line_end rest = true -> markup (c ++ rest) es ->
  exists e1 e2, es = e1 ++ e2 /\ markup c e1 /\ markup rest e2.
Proof.
  intros Hend H. destruct rest as [|t rest]; simpl in Hend.
  - rewrite app_nil_r in H. exists es, []. rewrite app_nil_r.
    repeat split; [done|constructor].
  - assert (Ht : ~ In t token_chars)
      by (apply delim_not_token; by apply terminator_delim).
    destruct (markup_split _ _ _ _ H Ht) as (e1 & e2 & -> & H1 & H2).
    exists e1, e2. repeat split; [done|].
    apply markup_char; [|done]. by apply delim_plain, terminator_delim.
Qed.

(** One replacement of a delimited match by its capture between two tags
    keeps the string a markup string with the same entities. *)
Lemma markup_rewrite (open close : jsstring) pre s n cap es :
  In open tags -> In close tags ->
  delimited s n cap ->
  markup (pre ++ s) es ->
  (0 < n <= length s)%nat /\
  markup (pre ++ expand [Lit open; Group1; Lit close] cap ++ drop n s) es.
Proof.
  intros Hopen Hclose (a & c & b & rest & -> & -> & -> & Hne & Ha & Hb & _ & Hend) H.
  split.
  { destruct a; [done|]. rewrite ?length_app. simpl. lia. }
  replace (drop (length (a ++ c ++ b)) (a ++ c ++ b ++ rest)) with rest.
  2:{ rewrite !app_assoc, <- (app_assoc a c b). by rewrite drop_app_length. }
  destruct a as [|d a]; [done|]. simpl in Ha. apply andb_prop in Ha as [Hd Ha].
  simpl in H.
  destruct (markup_split _ _ _ _ H (delim_not_token d Hd)) as (e1 & e2 & -> & H1 & H2).
  apply markup_strip in H2; [|done].
  assert (exists e3 e4, e2 = e3 ++ e4 /\ markup c e3 /\ markup rest e4)
    as (e3 & e4 & -> & H3 & H4).
  { destruct b as [|d' b].
    - apply markup_split_eol; [by apply Hend|done].
    - simpl in Hb. apply andb_prop in Hb as [Hd' Hb]. simpl in H2.
      destruct (markup_split _ _ _ _ H2 (delim_not_token d' Hd'))
        as (e3 & e4 & -> & H3 & H4).
      exists e3, e4. repeat split; [done|]. by apply (markup_strip b). }
  apply markup_app; [done|]. simpl. rewrite app_nil_r, <- !app_assoc.
  apply markup_tag; [done|]. apply markup_app; [done|].
  by apply markup_tag.
Qed.

Lemma markup_step (r : regex) (open close : jsstring) :
  In open tags -> In close tags ->
  (forall prev s n cap, exec r prev s = Some (n, cap) -> delimited s n cap) ->
  forall s es, markup s es ->
    markup (replace r [Lit open; Group1; Lit close] s) es.
Proof.
  intros Hopen Hclose Hshape s es H.
  apply (replace_preserves r _ (fun x => markup x es)); [|done].
  intros pre x prev n cap Hx E.
  apply markup_rewrite; [done|done| |done]. by apply (Hshape prev).
Qed.

End Markup.

(** ** Step 1 and the line walk *)

Section Steps.

Lemma escapeHtml_flat_map (text : jsstring) :
  escapeHtml text = flat_map escape_char text.
Proof.
  unfold escapeHtml, amp_re, lt_re, gt_re. rewrite !replace_char.
  induction text as [|d t IH]; [done|].
  cbn [flat_map]. rewrite !flat_map_app, IH. f_equal.
  unfold escape_char, entity_of.
  destruct (N.eqb_spec (ch "&") d) as [<-|Ha]; [done|].
  destruct (N.eqb_spec (ch "<") d) as [<-|Hl]; [done|].
  destruct (N.eqb_spec (ch ">") d) as [<-|Hg]; [done|].
  rewrite (proj2 (N.eqb_neq d (ch "&"))) by done.
  rewrite (proj2 (N.eqb_neq d (ch "<"))) by done.
  rewrite (proj2 (N.eqb_neq d (ch ">"))) by done.
  cbn [flat_map]. rewrite (proj2 (N.eqb_neq (ch "<") d)) by done.
  cbn [flat_map app]. by rewrite (proj2 (N.eqb_neq (ch ">") d)) by done.
Qed.

Lemma markup_escaped (text : jsstring) :
  markup (flat_map escape_char text) (specials text).
Proof.
  induction text as [|d t IH]; [constructor|].
  unfold specials. simpl. unfold escape_char.
  destruct (entity_of d) as [e|] eqn:E.
  - by apply markup_entity.
  - by apply markup_char.
Qed.

Lemma split_lines_app (t s l : jsstring) (ls : list jsstring) :
  ~ In LF t -> split_lines s = l :: ls -> split_lines (t ++ s) = (t ++ l) :: ls.
Proof.
  intros Ht Hs. induction t as [|c t IH]; [done|].
  simpl. destruct (N.eqb_spec c LF) as [->|_].
  - destruct Ht. by left.
  - rewrite IH; [done|]. intros Hin. apply Ht. by right.
Qed.

Lemma LF_not_token : ~ In LF token_chars.
Proof. by apply delim_not_token. Qed.

Lemma split_lines_cons (s : jsstring) :
  exists l ls, split_lines s = l :: ls.
Proof.
  induction s as [|c s (l & ls & IH)]; simpl; [by eauto|].
  destruct (c =? LF); [by eauto|]. rewrite IH. by eauto.
Qed.

Lemma markup_lines (s : jsstring) (es : list entity) :
  markup s es ->
  exists ess, Forall2 markup (split_lines s) ess /\ es = concat ess.
Proof.
  induction 1 as [|c s es Hc Hs IH|t s es Ht Hs IH|e s es Hs IH].
  - exists [[]]. split; [|done]. repeat constructor.
  - destruct IH as (ess & Hall & ->). simpl.
    destruct (c =? LF).
    + exists ([] :: ess). split; [|done]. constructor; [constructor|done].
    + destruct (split_lines_cons s) as (l & ls & E). rewrite E in *.
      inversion Hall as [|? e1 ? ess' Hl Hls]; subst.
      exists (e1 :: ess'). split; [|done]. constructor; [|done].
      by constructor.
  - destruct IH as (ess & Hall & ->).
    destruct (split_lines_cons s) as (l & ls & E). rewrite E in Hall.
    inversion Hall as [|? e1 ? ess' Hl Hls]; subst.
    rewrite (split_lines_app t s l ls); [..|done].
    + exists (e1 :: ess'). split; [|done]. constructor; [|done].
      by constructor.
    + intros Hin. apply LF_not_token. by apply (tag_chars t).
  - destruct IH as (ess & Hall & ->).
    destruct (split_lines_cons s) as (l & ls & E). rewrite E in Hall.
    inversion Hall as [|? e1 ? ess' Hl Hls]; subst.
    rewrite (split_lines_app (entity_ref e) s l ls); [..|done].
    + exists ((e :: e1) :: ess'). split; [|done]. constructor; [|done].
      by constructor.
    + intros Hin. apply LF_not_token. by apply (entity_chars e).
Qed.

Lemma trimStart_blank (l : jsstring) :
  trimStart l = [] -> forallb isSpace l = true.
Proof.
  induction l as [|c l IH]; simpl; [done|].
  destruct (isSpace c); [done|discriminate].
Qed.

Lemma trimStart_all_space (l : jsstring) :
  forallb isSpace (trimStart l) = true -> forallb isSpace l = true.
Proof.
  induction l as [|c l IH]; simpl; [done|].
  destruct (isSpace c) eqn:E; simpl; [done|]. by rewrite E.
Qed.

Lemma forallb_reverse (f : char -> bool) (l : jsstring) :
  forallb f (reverse l) = forallb f l.
Proof.
  induction l as [|c l IH]; [done|].
  rewrite reverse_cons, forallb_app, IH. simpl.
  rewrite andb_true_r. apply andb_comm.
Qed.

(** A line that [trim] empties consists of white space. *)
Lemma trim_blank (l : jsstring) :
  nonempty (trim l) = false -> forallb isSpace l = true.
Proof.
  unfold trim. intros H.
  destruct (reverse (trimStart (reverse (trimStart l)))) as [|c t] eqn:E; [|done].
  apply (f_equal reverse) in E. rewrite reverse_involutive in E.
  change (reverse []) with (@nil char) in E.
  apply trimStart_blank in E. rewrite forallb_reverse in E.
  by apply trimStart_all_space.
Qed.

Lemma markup_blank (l : jsstring) (es : list entity) :
  forallb isSpace l = true -> markup l es -> es = [].
Proof.
  intros Hl H. apply markup_nil_inv. apply (markup_strip l).
  - by apply forallb_space_delim.
  - by rewrite app_nil_r.
Qed.

Lemma walk_line_markup (html line : jsstring) (b : bool) (e0 e1 : list entity) :
  markup html e0 -> markup line e1 ->
  markup (fst (walk_line (html, b) line)) (e0 ++ e1).
Proof.
  intros Hhtml Hline. unfold walk_line.
  destruct (includes (js "<li>") line); cbn [fst].
  - apply markup_app; [|done].
    destruct b; cbn [negb]; [done|].
    rewrite <- (app_nil_r e0). apply markup_app; [done|].
    apply markup_tag_alone. simpl. tauto.
  - assert (Hclosed : markup (if b then html ++ js "</ul>" else html) e0).
    { destruct b; [|done]. rewrite <- (app_nil_r e0).
      apply markup_app; [done|]. apply markup_tag_alone. simpl. tauto. }
    destruct (nonempty (trim line)) eqn:Hblank.
    + apply markup_app; [done|].
      apply markup_tag; [simpl; tauto|].
      rewrite <- (app_nil_r e1). apply markup_app; [done|].
      apply markup_tag_alone. simpl. tauto.
    + apply trim_blank in Hblank.
      by rewrite (markup_blank line e1 Hblank Hline), app_nil_r.
Qed.

Lemma walk_markup (lines : list jsstring) (ess : list (list entity)) :
  Forall2 markup lines ess ->
  forall html b e0, markup html e0 ->
    markup (fst (foldl walk_line (html, b) lines)) (e0 ++ concat ess).
Proof.
  induction 1 as [|line e1 lines ess Hline Hlines IH]; intros html b e0 Hhtml.
  - simpl. by rewrite app_nil_r.
  - change (foldl walk_line (html, b) (line :: lines))
      with (foldl walk_line (walk_line (html, b) line) lines).
    pose proof (walk_line_markup html line b e0 e1 Hhtml Hline) as Hw.
    destruct (walk_line (html, b) line) as [html' b'].
    simpl concat. rewrite app_assoc. by apply IH.
Qed.

Lemma wrap_lines_markup (lines : list jsstring) (ess : list (list entity)) :
  Forall2 markup lines ess -> markup (wrap_lines lines) (concat ess).
Proof.
  intros H. unfold wrap_lines.
  pose proof (walk_markup lines ess H [] false [] markup_nil) as Hw.
  destruct (foldl walk_line ([], false) lines) as [html inList]. simpl in Hw.
  destruct inList; [|done].
  rewrite <- (app_nil_r (concat ess)). apply markup_app; [done|].
  apply markup_tag_alone. simpl. tauto.
Qed.

End Steps.

(** ** The claims about parseMarkdown *)

(** C1: for every input string, the output of [parseMarkdown] is a sequence
    of characters other than [&], [<] and [>], of generated tags and of
    entity references, and its entity references are, in order, the
    references that stand for the [&], [<] and [>] of the input.  So each
    such character of the input appears in the output in entity form only.
    The escaping is the first step: it alone turns the input into such a
    string, and the later steps keep it one. *)
Theorem C1_specials_only_as_entities (text : jsstring) :
  markup (parseMarkdown text) (specials text) /\
  markup (escapeHtml text) (specials text) /\
  escapeHtml text = flat_map escape_char text /\
  parseMarkdown text =
    if nonempty text
    then wrap_lines (split_lines (olist (ulist (italic (bold (escapeHtml text))))))
    else [].
Proof.
  assert (Hesc : markup (escapeHtml text) (specials text)).
  { rewrite escapeHtml_flat_map. apply markup_escaped. }
  split; [|split; [done|split; [apply escapeHtml_flat_map|by destruct text]]].
  unfold parseMarkdown. destruct text as [|c t]; [constructor|].
  cbn [nonempty negb].
  set (x := escapeHtml (c :: t)) in *.
  assert (H : markup (olist (ulist (italic (bold x)))) (specials (c :: t))).
  { apply (markup_step olist_re (js "<li>") (js "</li>"));
      [simpl; tauto|simpl; tauto|apply olist_delimited|].
    apply (markup_step ulist_re (js "<li>") (js "</li>"));
      [simpl; tauto|simpl; tauto|apply ulist_delimited|].
    apply (markup_step italic_re (js "<em>") (js "</em>"));
      [simpl; tauto|simpl; tauto|apply italic_delimited|].
    apply (markup_step bold_re (js "<strong>") (js "</strong>"));
      [simpl; tauto|simpl; tauto|apply bold_delimited|done]. }
  destruct (markup_lines _ _ H) as (ess & Hall & ->).
  by apply wrap_lines_markup.
Qed.

(** ** Running the matcher forward *)

Section Forward.

Variables (p : char -> bool) (k : cont).

(** A greedy repetition over a run of the class that ends where the class
    stops commits to the whole run when the continuation succeeds there. *)
Lemma greedy_commit (w t : jsstring) :
  forall prev st res,
    forallb p w = true -> stops p t = true ->
    k (prev_at prev w) t (eats w st) = Some res ->
    greedy p k prev (w ++ t) st = Some res.
Proof.
  induction w as [|d w IH]; intros prev st res Hw Ht Hk; simpl in *.
  - destruct t as [|c t]; [done|]. simpl in *.
    by destruct (p c).
  - apply andb_prop in Hw as [-> Hw]. by rewrite (IH _ _ res).
Qed.

(** It fails when the continuation fails after every part of the run. *)
Lemma greedy_none (w t : jsstring) :
  forall prev st,
    forallb p w = true -> stops p t = true ->
    (forall x y, w = x ++ y -> k (prev_at prev x) (y ++ t) (eats x st) = None) ->
    greedy p k prev (w ++ t) st = None.
Proof.
  induction w as [|d w IH]; intros prev st Hw Ht Hk; simpl in *.
  - specialize (Hk [] [] eq_refl). simpl in Hk.
    destruct t as [|c t]; [done|]. simpl in *. by destruct (p c).
  - apply andb_prop in Hw as [-> Hw]. rewrite IH; [|done|done|].
    + apply (Hk [] (d :: w) eq_refl).
    + intros x y ->. apply (Hk (d :: x) y eq_refl).
Qed.

(** A lazy repetition stops at the first position where the continuation
    succeeds. *)
Lemma lazy_first (s : jsstring) :
  forall prev st res,
    lazy p k prev s st = Some res ->
    exists w t, s = w ++ t /\ forallb p w = true /\
      k (prev_at prev w) t (eats w st) = Some res /\
      forall x y, w = x ++ y -> y <> [] ->
        k (prev_at prev x) (y ++ t) (eats x st) = None.
Proof.
  induction s as [|d s IH]; intros prev st res H; simpl in H.
  - destruct (k prev [] st) as [r|] eqn:Hk; [|done].
    injection H as ->. exists [], []. repeat split; try done.
    intros x y E. by destruct x, y.
  - destruct (k prev (d :: s) st) as [r|] eqn:Hk.
    + injection H as ->. exists [], (d :: s). repeat split; try done.
      intros x y E. by destruct x, y.
    + destruct (p d) eqn:Hp; [|done].
      destruct (IH _ _ _ H) as (w & t & -> & Hw & Hk' & Hmin).
      exists (d :: w), t. simpl. rewrite Hp. repeat split; try done.
      intros x y E Hy. destruct x as [|x0 x]; simpl in E.
      * subst y. simpl. done.
      * injection E as -> ->. by apply Hmin.
Qed.

End Forward.

Section Locality.

Lemma greedy_prev (p : char -> bool) (k : cont) :
  (forall prev prev' s st, k prev s st = k prev' s st) ->
  forall s prev prev' st, greedy p k prev s st = greedy p k prev' s st.
Proof.
  intros Hk. induction s as [|d s IH]; intros prev prev' st; simpl; [done|].
  by rewrite (Hk prev prev').
Qed.

Lemma lazy_prev (p : char -> bool) (k : cont) :
  (forall prev prev' s st, k prev s st = k prev' s st) ->
  forall s prev prev' st, lazy p k prev s st = lazy p k prev' s st.
Proof.
  intros Hk. induction s as [|d s IH]; intros prev prev' st; simpl;
    by rewrite (Hk prev prev').
Qed.

(** A local pattern does not look at the character before the match. *)
Lemma mseq_prev (r : regex) :
  local_re r = true ->
  forall prev prev' s st, mseq r prev s st = mseq r prev' s st.
Proof.
  induction r as [|nd r IH]; [done|].
  simpl. intros [Hnd Hr]%andb_prop. specialize (IH Hr).
  destruct nd as [c|p|p|p| | | |]; simpl in *; try done; intros prev prev' s st.
  - by apply greedy_prev.
  - by apply lazy_prev.
Qed.

Lemma greedy_local (p : char -> bool) (k k' : cont) (t : jsstring) :
  p LF = false ->
  (forall prev a st, k prev (a ++ LF :: t) st = k' prev a st) ->
  forall a prev st, greedy p k prev (a ++ LF :: t) st = greedy p k' prev a st.
Proof.
  intros Hp Hk. induction a as [|d a IH]; intros prev st; simpl.
  - rewrite Hp. apply (Hk prev []).
  - rewrite IH. by rewrite (Hk prev (d :: a)).
Qed.

Lemma lazy_local (p : char -> bool) (k k' : cont) (t : jsstring) :
  p LF = false ->
  (forall prev a st, k prev (a ++ LF :: t) st = k' prev a st) ->
  forall a prev st, lazy p k prev (a ++ LF :: t) st = lazy p k' prev a st.
Proof.
  intros Hp Hk. induction a as [|d a IH]; intros prev st; simpl.
  - rewrite Hp. rewrite (Hk prev []). by destruct (k' prev [] st).
  - rewrite IH. by rewrite (Hk prev (d :: a)).
Qed.

(** A local pattern matches at a position of a line the same way whatever
    follows the line. *)
Lemma mseq_local (r : regex) (t : jsstring) :
  local_re r = true ->
  forall prev a st, mseq r prev (a ++ LF :: t) st = mseq r prev a st.
Proof.
  induction r as [|nd r IH]; [done|].
  simpl. intros [Hnd Hr]%andb_prop. specialize (IH Hr).
  destruct nd as [c|p|p|p| | | |]; simpl in *; try done; intros prev a st.
  - destruct a as [|d a]; simpl.
    + apply negb_true_iff in Hnd. by rewrite Hnd.
    + by rewrite IH.
  - apply greedy_local; [by apply negb_true_iff|done].
  - apply lazy_local; [by apply negb_true_iff|done].
  - destruct a as [|d a]; simpl.
    + apply negb_true_iff in Hnd. by rewrite Hnd.
    + destruct (p d); [|done]. apply greedy_local; [by apply negb_true_iff|done].
Qed.

Lemma sem_len (r : regex) :
  forall prev s st n cap,
    sem r prev s st (n, cap) -> (m_len st <= n <= m_len st + length s)%nat.
Proof.
  induction r as [|nd r IH]; intros prev s st n cap H; simpl in H.
  - injection H as -> _. lia.
  - destruct nd as [c|p|p|p| | | |].
    + destruct H as (t & -> & H). apply IH in H. simpl in *. lia.
    + destruct H as (w & t & -> & _ & H). apply IH in H.
      rewrite eats_len in H. rewrite length_app. lia.
    + destruct H as (w & t & -> & _ & H). apply IH in H.
      rewrite eats_len in H. rewrite length_app. lia.
    + destruct H as (d & w & t & -> & _ & _ & H). apply IH in H.
      rewrite eats_len in H. simpl in *. rewrite length_app. lia.
    + destruct H as [_ H]. by apply IH in H.
    + destruct H as [_ H]. by apply IH in H.
    + by apply IH in H.
    + by apply IH in H.
Qed.

Lemma exec_len (r : regex) prev s n cap :
  exec r prev s = Some (n, cap) -> (n <= length s)%nat.
Proof.
  intros H. apply mseq_sound, sem_len in H. simpl in H. lia.
Qed.

Variables (r : regex) (tpl : template).
Hypothesis Hlocal : local_re r = true.

Lemma exec_local (t a : jsstring) (prev : option char) :
  exec r prev (a ++ LF :: t) = exec r prev a.
Proof. unfold exec. by apply mseq_local. Qed.

Lemma exec_prev (prev prev' : option char) (s : jsstring) :
  exec r prev s = exec r prev' s.
Proof. unfold exec. by apply mseq_prev. Qed.

Lemma scan_prev :
  forall s k prev prev', scan r tpl prev s k = scan r tpl prev' s k.
Proof.
  induction s as [|c s IH]; intros k prev prev'.
  - destruct k; [|done]. cbn [scan]. by rewrite (exec_prev prev prev').
  - destruct k as [|k]; cbn [scan]; [|done].
    by rewrite (exec_prev prev prev').
Qed.

(** The global replacement with a local pattern works line by line. *)
Lemma scan_local (t : jsstring) :
  forall m a, (length a <= m)%nat ->
    forall prev,
      scan r tpl prev (a ++ LF :: t) 0 =
      scan r tpl prev a 0 ++ LF :: scan r tpl prev t 0.
Proof.
  assert (Hnil : forall prev,
            scan r tpl prev ([] ++ LF :: t) 0 =
            scan r tpl prev [] 0 ++ LF :: scan r tpl prev t 0).
  { intros prev. cbn [scan app].
    rewrite <- (exec_local t [] prev). cbn [app].
    rewrite (scan_prev t 0%nat (Some LF) prev).
    destruct (exec r prev (LF :: t)) as [[n cap]|] eqn:E; [|reflexivity].
    rewrite <- (app_nil_l (LF :: t)), exec_local in E.
    apply exec_len in E. cbn [length] in E. destruct n; [|lia].
    by rewrite app_nil_r. }
  induction m as [|m IH]; intros a Hm prev.
  - destruct a; [apply Hnil|cbn [length] in Hm; lia].
  - destruct a as [|c a]; [apply Hnil|].
    cbn [length] in Hm. rewrite <- app_comm_cons. cbn [scan].
    rewrite app_comm_cons, exec_local.
    rewrite (IH a ltac:(lia) (Some c)).
    rewrite (scan_prev t 0%nat (Some c) prev).
    destruct (exec r prev (c :: a)) as [[n cap]|] eqn:E; [|reflexivity].
    apply exec_len in E. cbn [length] in E. rewrite <- app_assoc.
    destruct n as [|k]; [reflexivity|].
    rewrite (scan_skip r tpl k (a ++ LF :: t)) by (rewrite length_app; lia).
    rewrite (scan_skip r tpl k a) by lia.
    rewrite drop_app_le by lia.
    rewrite (IH (drop k a)); [|rewrite length_drop; lia].
    rewrite (scan_prev (drop k a) 0%nat _ (prev_at (Some c) (take k a))).
    rewrite (scan_prev t 0%nat _ prev).
    reflexivity.
Qed.

(** On the lines of a text, a local pattern is replaced line by line. *)
Lemma replace_join_lines (l : jsstring) (ls : list jsstring) :
  replace r tpl (join_lines (l :: ls)) =
  join_lines (replace r tpl <$> (l :: ls)).
Proof.
  revert l. induction ls as [|l' ls IH]; intros l; [done|].
  change (join_lines (l :: l' :: ls)) with (l ++ LF :: join_lines (l' :: ls)).
  change (join_lines (replace r tpl <$> l :: l' :: ls))
    with (replace r tpl l ++ LF :: join_lines (replace r tpl <$> l' :: ls)).
  rewrite <- IH. unfold replace.
  apply (scan_local _ (length l) l (le_n _)).
Qed.

End Locality.

(** ** Facts about character classes *)

Ltac eval_ch :=
  repeat match goal with
         | |- context [ch ?a] =>
             let v := eval vm_compute in (ch a) in change (ch a) with v
         | H : context [ch ?a] |- _ =>
             let v := eval vm_compute in (ch a) in change (ch a) with v in H
         end.

Ltac bool_lia :=
  unfold header_char, delim, isDot, isSpace, isWhiteSpace, isLineTerminator,
    isDigit, stops, LF in *;
  eval_ch;
  rewrite ?negb_true_iff, ?negb_false_iff in *;
  rewrite ?orb_true_iff, ?andb_true_iff, ?orb_false_iff, ?andb_false_iff in *;
  rewrite ?N.eqb_eq, ?N.eqb_neq, ?N.leb_le, ?N.leb_gt in *;
  lia.

Lemma white_space_facts (c : char) :
  isWhiteSpace c = true -> isSpace c = true /\ isDot c = true.
Proof. intros H. repeat split; bool_lia. Qed.

Lemma space_facts (c : char) :
  isSpace c = true ->
  isDigit c = false /\ header_char c = true /\ (ch "-" =? c) = false.
Proof. intros H. repeat split; bool_lia. Qed.

Lemma digit_facts (c : char) :
  isDigit c = true ->
  isSpace c = false /\ isDot c = true /\ header_char c = true /\
  (ch "-" =? c) = false.
Proof. intros H. repeat split; bool_lia. Qed.

Lemma header_char_facts (c : char) :
  header_char c = true ->
  c <> ch "*" /\ c <> ch "&" /\ c <> ch "<" /\ c <> ch ">".
Proof. intros H. repeat split; bool_lia. Qed.

Lemma dot_not_LF (c : char) : isDot c = true -> c <> LF.
Proof. intros H. bool_lia. Qed.

(** ** Replacement over the lines of a text *)

Section Copy.

Variables (r : regex) (tpl : template).

(** Where the pattern matches nowhere in a piece of text, the piece is
    copied. *)
Lemma scan_copy (L T : jsstring) :
  forall prev,
    (forall x y, L = x ++ y -> y <> [] ->
       exec r (prev_at prev x) (y ++ T) = None) ->
    scan r tpl prev (L ++ T) 0 = L ++ scan r tpl (prev_at prev L) T 0.
Proof.
  induction L as [|c L IH]; intros prev H; [done|].
  assert (E : exec r prev ((c :: L) ++ T) = None) by (by apply (H [] (c :: L))).
  rewrite <- app_comm_cons in E |- *. cbn [scan]. rewrite E.
  rewrite <- app_comm_cons. f_equal.
  apply (IH (Some c)). intros x y -> Hy. by apply (H (c :: x) y).
Qed.

(** Where the pattern matches a whole piece of text, the piece is replaced
    and the walk resumes behind it. *)
Lemma scan_match (L T : jsstring) (prev : option char) (cap : option jsstring) :
  L <> [] ->
  exec r prev (L ++ T) = Some (length L, cap) ->
  scan r tpl prev (L ++ T) 0 =
  expand tpl cap ++ scan r tpl (prev_at prev L) T 0.
Proof.
  intros HL E. destruct L as [|c L]; [done|].
  rewrite <- app_comm_cons in E |- *. cbn [scan]. rewrite E. f_equal.
  cbn [length].
  rewrite (scan_skip r tpl (length L) (L ++ T)) by (rewrite length_app; lia).
  by rewrite take_app_length, drop_app_length.
Qed.

End Copy.

(** A pattern that begins with a literal character leaves a prefix without
    that character as it is. *)
Lemma replace_after_prefix (c : char) (r : regex) (tpl : template)
    (pre x : jsstring) :
  local_re (Chr c :: r) = true ->
  ~ In c pre ->
  replace (Chr c :: r) tpl (pre ++ x) = pre ++ replace (Chr c :: r) tpl x.
Proof.
  intros Hloc Hpre. unfold replace.
  rewrite scan_copy.
  - f_equal. by apply scan_prev.
  - intros u v -> Hv. destruct v as [|d v]; [done|].
    unfold exec. simpl. destruct (N.eqb_spec c d) as [->|]; [|done].
    destruct Hpre. apply in_or_app. right. by left.
Qed.

(** ** Steps 1 to 3 on the lines of a text *)

Section Inline.

Lemma join_lines_step (r : regex) (tpl : template) (f : jsstring -> jsstring)
    (l : jsstring) (ls : list jsstring) :
  local_re r = true ->
  replace r tpl (join_lines (f <$> (l :: ls))) =
  join_lines ((fun x => replace r tpl (f x)) <$> (l :: ls)).
Proof.
  intros Hloc. rewrite fmap_cons, (replace_join_lines r tpl Hloc).
  rewrite <- fmap_cons. by rewrite <- list_fmap_compose.
Qed.

(** Steps 1 to 3 work line by line. *)
Lemma inline_join_lines (l : jsstring) (ls : list jsstring) :
  inline (join_lines (l :: ls)) = join_lines (inline <$> (l :: ls)).
Proof.
  unfold inline, italic, bold, escapeHtml.
  rewrite <- (list_fmap_id (l :: ls)) at 1.
  rewrite (join_lines_step amp_re) by done.
  rewrite (join_lines_step lt_re) by done.
  rewrite (join_lines_step gt_re) by done.
  rewrite (join_lines_step bold_re) by done.
  by rewrite (join_lines_step italic_re) by done.
Qed.

Lemma header_char_not_in (pre : jsstring) (c : char) :
  forallb header_char pre = true ->
  c = ch "&" \/ c = ch "<" \/ c = ch ">" \/ c = ch "*" ->
  ~ In c pre.
Proof.
  intros Hpre Hc Hin. rewrite forallb_forall in Hpre.
  destruct (header_char_facts c (Hpre c Hin)) as (H1 & H2 & H3 & H4).
  destruct Hc as [Hc|[Hc|[Hc|Hc]]]; congruence.
Qed.

(** Steps 1 to 3 leave the header of a line as it is. *)
Lemma inline_after_header (pre x : jsstring) :
  forallb header_char pre = true -> inline (pre ++ x) = pre ++ inline x.
Proof.
  intros Hpre.
  unfold inline, italic, bold, escapeHtml, amp_re, lt_re, gt_re, bold_re, italic_re.
  rewrite (replace_after_prefix (ch "&")); [|done|apply header_char_not_in; auto].
  rewrite (replace_after_prefix (ch "<")); [|done|apply header_char_not_in; auto].
  rewrite (replace_after_prefix (ch ">")); [|done|apply header_char_not_in; auto].
  rewrite (replace_after_prefix (ch "*")); [|done|apply header_char_not_in; auto].
  by rewrite (replace_after_prefix (ch "*")); [|done|apply header_char_not_in; auto].
Qed.

Lemma delimited_len s n cap :
  delimited s n cap -> (0 < n <= length s)%nat.
Proof.
  intros (a & c & b & rest & -> & -> & _ & Hne & _).
  destruct a; [done|]. rewrite ?length_app. simpl. lia.
Qed.

Lemma delimited_drop (a c b rest : jsstring) :
  drop (length (a ++ c ++ b)) (a ++ c ++ b ++ rest) = rest.
Proof.
  rewrite !app_assoc, <- (app_assoc a c b). by rewrite drop_app_length.
Qed.

(** A text that begins with a character other than white space and holds
    no line terminator stays such a text through steps 1 to 3. *)
Lemma text_rewrite (open close : jsstring) pre s n cap :
  starts_with_text open = true -> forallb isDot open = true ->
  forallb isDot close = true ->
  delimited s n cap ->
  starts_with_text (pre ++ s) = true /\ forallb isDot (pre ++ s) = true ->
  (0 < n <= length s)%nat /\
  starts_with_text (pre ++ expand [Lit open; Group1; Lit close] cap ++ drop n s)
    = true /\
  forallb isDot (pre ++ expand [Lit open; Group1; Lit close] cap ++ drop n s)
    = true.
Proof.
  intros Ho1 Ho2 Hc Hd [H1 H2]. split; [by apply (delimited_len s n cap)|].
  destruct Hd as (a & c & b & rest & -> & -> & -> & _ & _ & _ & Hcap & _).
  rewrite delimited_drop. simpl. rewrite app_nil_r.
  rewrite !forallb_app in H2 |- *.
  apply andb_prop in H2 as [Hp [_ [_ [_ Hr]%andb_prop]%andb_prop]%andb_prop].
  split.
  - destruct pre as [|p0 pre]; [|done]. by destruct open.
  - by rewrite Hp, Ho2, Hcap, Hc, Hr.
Qed.

Lemma escape_char_dots (c : char) :
  isDot c = true -> forallb isDot (escape_char c) = true.
Proof.
  intros Hc. unfold escape_char. destruct (entity_of c) as [[]|]; try done.
  simpl. by rewrite Hc.
Qed.

Lemma escaped_text (x : jsstring) :
  starts_with_text x = true -> forallb isDot x = true ->
  starts_with_text (escapeHtml x) = true /\ forallb isDot (escapeHtml x) = true.
Proof.
  intros H1 H2. rewrite escapeHtml_flat_map. split.
  - destruct x as [|c t]; [done|]. simpl in *. unfold escape_char.
    by destruct (entity_of c) as [[]|].
  - clear H1. induction x as [|c t IH]; [done|]. simpl in *.
    apply andb_prop in H2 as [Hc Ht]. rewrite forallb_app.
    by rewrite (escape_char_dots c Hc), IH.
Qed.

Lemma inline_text (x : jsstring) :
  starts_with_text x = true -> forallb isDot x = true ->
  starts_with_text (inline x) = true /\ forallb isDot (inline x) = true.
Proof.
  intros H1 H2. unfold inline, italic, bold, em_tpl, strong_tpl.
  apply (replace_preserves italic_re _
           (fun s => starts_with_text s = true /\ forallb isDot s = true)).
  { intros pre s prev n cap Hs E. apply text_rewrite; try done.
    by apply (italic_delimited prev). }
  apply (replace_preserves bold_re _
           (fun s => starts_with_text s = true /\ forallb isDot s = true)).
  { intros pre s prev n cap Hs E. apply text_rewrite; try done.
    by apply (bold_delimited prev). }
  by apply escaped_text.
Qed.

End Inline.

(** ** The list patterns at the start of a line *)

Ltac finish_state :=
  repeat first
    [ rewrite eats_len | rewrite eats_open | rewrite eats_cap
    | progress cbn [m_len m_cap m_open eat open_group close_group
                    fmap option_fmap option_map] ].

Section ListPatterns.

Lemma white_space_run (w : jsstring) :
  forallb isWhiteSpace w = true -> forallb isSpace w = true.
Proof.
  induction w as [|c w IH]; simpl; [done|].
  intros [Hc Hw]%andb_prop. rewrite IH by done.
  by rewrite (proj1 (white_space_facts c Hc)).
Qed.

Lemma white_space_dots (w : jsstring) :
  forallb isWhiteSpace w = true -> forallb isDot w = true.
Proof.
  induction w as [|c w IH]; simpl; [done|].
  intros [Hc Hw]%andb_prop. rewrite IH by done.
  by rewrite (proj2 (white_space_facts c Hc)).
Qed.

Lemma digits_dots (w : jsstring) :
  forallb isDigit w = true -> forallb isDot w = true.
Proof.
  induction w as [|c w IH]; simpl; [done|].
  intros [Hc Hw]%andb_prop. rewrite IH by done.
  by rewrite (proj1 (proj2 (digit_facts c Hc))).
Qed.

Lemma at_line_end_stops (T : jsstring) :
  at_line_end T = true -> stops isDot T = true.
Proof. destruct T as [|c T]; [done|]. simpl. unfold isDot. by intros ->. Qed.

Lemma text_stops_space (x T : jsstring) :
  starts_with_text x = true -> stops isSpace (x ++ T) = true.
Proof. by destruct x. Qed.

(** Step 4 at the start of a line with a hyphen marker: the whole line is
    matched, together with the white space in front of the hyphen, and the
    text of the item is captured. *)
Lemma exec_ulist_hyphen (prev : option char) (ind : jsstring) (g : char)
    (gp itm T : jsstring) :
  at_line_start prev = true ->
  forallb isSpace ind = true ->
  isWhiteSpace g = true -> forallb isWhiteSpace gp = true ->
  starts_with_text itm = true -> forallb isDot itm = true ->
  at_line_end T = true ->
  exec ulist_re prev ((ind ++ [ch "-"] ++ (g :: gp) ++ itm) ++ T) =
  Some (length (ind ++ [ch "-"] ++ (g :: gp) ++ itm), Some itm).
Proof.
  intros Hprev Hind Hg Hgp Hitm Hdots HT.
  replace ((ind ++ [ch "-"] ++ (g :: gp) ++ itm) ++ T)
    with (ind ++ ch "-" :: g :: (gp ++ (itm ++ T))).
  2:{ rewrite <- ?app_assoc. cbn [app]. by rewrite <- ?app_assoc. }
  unfold exec, ulist_re. cbn [mseq]. rewrite Hprev.
  apply greedy_commit; [done|done|].
  cbn [mseq]. rewrite N.eqb_refl.
  rewrite (proj1 (white_space_facts g Hg)).
  apply greedy_commit; [by apply white_space_run|by apply text_stops_space|].
  cbn [mseq].
  apply greedy_commit; [done|by apply at_line_end_stops|].
  cbn [mseq]. rewrite HT. finish_state.
  rewrite app_nil_r, reverse_involutive. do 2 f_equal.
  rewrite ?length_app. simpl. rewrite ?length_app. simpl. lia.
Qed.

(** The continuation of the leading white space fails on a character that
    is not what it asks for, so the pattern fails at the start of a line
    whose first character behind the white space is of another kind. *)
Lemma exec_ulist_none (prev : option char) (ind : jsstring) (d : char)
    (rest : jsstring) :
  forallb isSpace ind = true ->
  isSpace d = false -> (ch "-" =? d) = false ->
  exec ulist_re prev (ind ++ d :: rest) = None.
Proof.
  intros Hind Hd Hd'. unfold exec, ulist_re. cbn [mseq].
  destruct (at_line_start prev); [|done].
  apply greedy_none; [done|by simpl; rewrite Hd|].
  intros x y ->. destruct y as [|c y]; cbn [mseq app].
  - by rewrite Hd'.
  - rewrite forallb_app in Hind. apply andb_prop in Hind as [_ Hy].
    simpl in Hy. apply andb_prop in Hy as [Hc _].
    destruct (space_facts c Hc) as (_ & _ & E). by rewrite E.
Qed.

Lemma exec_olist_none (prev : option char) (ind : jsstring) (d : char)
    (rest : jsstring) :
  forallb isSpace ind = true ->
  isSpace d = false -> isDigit d = false ->
  exec olist_re prev (ind ++ d :: rest) = None.
Proof.
  intros Hind Hd Hd'. unfold exec, olist_re. cbn [mseq].
  destruct (at_line_start prev); [|done].
  apply greedy_none; [done|by simpl; rewrite Hd|].
  intros x y ->. destruct y as [|c y]; cbn [mseq app].
  - by rewrite Hd'.
  - rewrite forallb_app in Hind. apply andb_prop in Hind as [_ Hy].
    simpl in Hy. apply andb_prop in Hy as [Hc _].
    destruct (space_facts c Hc) as (E & _). by rewrite E.
Qed.

(** Step 5 at the start of a line with a numbered marker. *)
Lemma exec_olist_numbered (prev : option char) (ind : jsstring) (d : char)
    (ds : jsstring) (g : char) (gp itm T : jsstring) :
  at_line_start prev = true ->
  forallb isSpace ind = true ->
  isDigit d = true -> forallb isDigit ds = true ->
  isWhiteSpace g = true -> forallb isWhiteSpace gp = true ->
  starts_with_text itm = true -> forallb isDot itm = true ->
  at_line_end T = true ->
  exec olist_re prev ((ind ++ ((d :: ds) ++ [ch "."]) ++ (g :: gp) ++ itm) ++ T) =
  Some (length (ind ++ ((d :: ds) ++ [ch "."]) ++ (g :: gp) ++ itm), Some itm).
Proof.
  intros Hprev Hind Hd Hds Hg Hgp Hitm Hdots HT.
  replace ((ind ++ ((d :: ds) ++ [ch "."]) ++ (g :: gp) ++ itm) ++ T)
    with (ind ++ d :: (ds ++ ch "." :: g :: (gp ++ (itm ++ T)))).
  2:{ rewrite <- ?app_assoc. cbn [app]. by rewrite <- ?app_assoc. }
  unfold exec, olist_re. cbn [mseq]. rewrite Hprev.
  apply greedy_commit;
    [done|by simpl; rewrite (proj1 (digit_facts d Hd))|].
  cbn [mseq]. rewrite Hd.
  apply greedy_commit; [done|done|].
  cbn [mseq]. rewrite N.eqb_refl.
  rewrite (proj1 (white_space_facts g Hg)).
  apply greedy_commit; [by apply white_space_run|by apply text_stops_space|].
  cbn [mseq].
  apply greedy_commit; [done|by apply at_line_end_stops|].
  cbn [mseq]. rewrite HT. finish_state.
  rewrite app_nil_r, reverse_involutive. do 2 f_equal.
  rewrite ?length_app. simpl. rewrite ?length_app. simpl. lia.
Qed.

Lemma exec_bol_inside (r : regex) (prev : option char) (s : jsstring) :
  at_line_start prev = false -> exec (Bol :: r) prev s = None.
Proof. intros H. unfold exec. cbn [mseq]. by rewrite H. Qed.

(** Behind a text without line terminator the position is not a line
    start. *)
Lemma at_line_start_inside (prev : option char) (x0 x : jsstring) :
  x <> [] -> forallb isDot x = true ->
  at_line_start (prev_at prev (x0 ++ x)) = false.
Proof.
  intros Hx Hd. destruct (exists_last Hx) as (x' & d & ->).
  rewrite !prev_at_app. simpl. rewrite forallb_app in Hd.
  apply andb_prop in Hd as [_ Hd]. simpl in Hd. unfold isDot in Hd.
  rewrite andb_true_r in Hd. by apply negb_true_iff.
Qed.

End ListPatterns.

(** ** Steps 4 and 5 on the lines of a text *)

Section AnchoredLines.

Variables (r : regex) (tpl : template).

Lemma scan_anchored_lines (lines lines' : list jsstring) :
  Forall2 (line_step r tpl) lines lines' ->
  lines <> [] ->
  forall prev, at_line_start prev = true ->
    scan (Bol :: r) tpl prev (join_lines lines) 0 = join_lines lines'.
Proof.
  induction 1 as [|L L' ls ls' (HL & Hin & Hstep) Hrest IH]; [done|].
  intros _ prev Hprev.
  destruct Hrest as [|L2 L2' ls ls' H2 Hrest].
  - cbn [join_lines]. rewrite <- (app_nil_r L) at 1.
    rewrite (Hstep prev [] Hprev eq_refl). cbn [scan].
    rewrite (exec_bol_inside r _ [] (Hin prev)). by rewrite app_nil_r.
  - change (join_lines (L :: L2 :: ls))
      with (L ++ LF :: join_lines (L2 :: ls)).
    change (join_lines (L' :: L2' :: ls'))
      with (L' ++ LF :: join_lines (L2' :: ls')).
    rewrite (Hstep prev (LF :: join_lines (L2 :: ls)) Hprev eq_refl).
    f_equal. cbn [scan].
    rewrite (exec_bol_inside r _ _ (Hin prev)). f_equal.
    by apply IH.
Qed.

(** A line at no position of which the pattern matches is copied. *)
Lemma line_step_copy (L : jsstring) :
  L <> [] ->
  (forall prev, at_line_start (prev_at prev L) = false) ->
  (forall prev x y T, L = x ++ y -> y <> [] ->
     exec (Bol :: r) (prev_at prev x) (y ++ T) = None) ->
  line_step r tpl L L.
Proof.
  intros HL Hin Hnone. repeat split; [done..|].
  intros prev T _ _. apply scan_copy. intros x y E Hy. by apply Hnone.
Qed.

(** A line that the pattern matches as a whole is replaced. *)
Lemma line_step_match (L : jsstring) (cap : option jsstring) :
  L <> [] ->
  (forall prev, at_line_start (prev_at prev L) = false) ->
  (forall prev T, at_line_start prev = true -> at_line_end T = true ->
     exec (Bol :: r) prev (L ++ T) = Some (length L, cap)) ->
  line_step r tpl L (expand tpl cap).
Proof.
  intros HL Hin Hm. repeat split; [done..|].
  intros prev T Hprev HT. apply scan_match; [done|]. by apply Hm.
Qed.

End AnchoredLines.

Section ListLines.

Lemma expand_li (x : jsstring) :
  expand li_tpl (Some x) = js "<li>" ++ x ++ js "</li>".
Proof.
  unfold expand, li_tpl. cbn [flat_map default]. by rewrite app_nil_r.
Qed.

Lemma loose_line_parts (l : list_line) :
  loose_line l = true ->
  forallb isSpace (indent l) = true /\
  wf_marker (mark l) = true /\
  (exists g gp, gap l = g :: gp /\ isWhiteSpace g = true /\
                forallb isWhiteSpace gp = true) /\
  starts_with_text (item l) = true /\
  forallb isDot (item l) = true.
Proof.
  unfold loose_line. rewrite !andb_true_iff.
  intros [[[[[H1 H2] H3] H4] H5] H6]. repeat split; try done.
  destruct (gap l) as [|g gp]; [done|]. simpl in H4.
  apply andb_prop in H4 as [? ?]. by exists g, gp.
Qed.

Lemma wf_line_loose (l : list_line) :
  wf_line l = true -> loose_line l = true.
Proof.
  unfold wf_line, loose_line. rewrite !andb_true_iff.
  intros [[[[[H1 H2] H3] H4] H5] H6]. repeat split; try done.
  by apply white_space_run.
Qed.

Lemma space_header (w : jsstring) :
  forallb isSpace w = true -> forallb header_char w = true.
Proof.
  induction w as [|c w IH]; simpl; [done|].
  intros [Hc Hw]%andb_prop. rewrite IH by done.
  by rewrite (proj1 (proj2 (space_facts c Hc))).
Qed.

Lemma digits_header (w : jsstring) :
  forallb isDigit w = true -> forallb header_char w = true.
Proof.
  induction w as [|c w IH]; simpl; [done|].
  intros [Hc Hw]%andb_prop. rewrite IH by done.
  by rewrite (proj1 (proj2 (proj2 (digit_facts c Hc)))).
Qed.

Lemma header_chars (l : list_line) :
  loose_line l = true -> forallb header_char (header l) = true.
Proof.
  intros (Hind & Hm & (g & gp & Hgap & Hg & Hgp) & _)%loose_line_parts.
  unfold header. rewrite !forallb_app, (space_header _ Hind).
  rewrite (space_header (gap l)).
  2:{ apply white_space_run. rewrite Hgap. simpl. by rewrite Hg. }
  destruct (mark l) as [|ds]; [done|].
  simpl in Hm |- *. apply andb_prop in Hm as [_ Hds].
  by rewrite forallb_app, (digits_header _ Hds).
Qed.

Lemma source_line_header (l : list_line) :
  source_line l = header l ++ item l.
Proof. unfold source_line, header. by rewrite <- !app_assoc. Qed.

Lemma text_nonempty (x : jsstring) : starts_with_text x = true -> x <> [].
Proof. by destruct x. Qed.

Lemma source_line_nonempty (l : list_line) :
  loose_line l = true -> source_line l <> [].
Proof.
  intros (_ & _ & _ & Hitm & _)%loose_line_parts. rewrite source_line_header.
  intros [_ H]%app_eq_nil. by apply (text_nonempty _ Hitm).
Qed.

Lemma source_line_end (l : list_line) (prev : option char) :
  loose_line l = true -> at_line_start (prev_at prev (source_line l)) = false.
Proof.
  intros (_ & _ & _ & Hitm & Hd)%loose_line_parts. rewrite source_line_header.
  apply at_line_start_inside; [by apply text_nonempty|done].
Qed.

Lemma li_item_dots (l : list_line) :
  loose_line l = true -> forallb isDot (li_item l) = true.
Proof.
  intros (_ & _ & _ & _ & Hd)%loose_line_parts. unfold li_item.
  by rewrite !forallb_app, Hd.
Qed.

Lemma li_item_end (l : list_line) (prev : option char) :
  loose_line l = true -> at_line_start (prev_at prev (li_item l)) = false.
Proof.
  intros Hl. apply (at_line_start_inside prev [] (li_item l)); [done|].
  by apply li_item_dots.
Qed.

(** A pattern that fails behind every run of white space in front of the
    character [d] matches nowhere in a line that goes on with [d]. *)
Lemma copy_positions (r : regex) (ind : jsstring) (d : char) (R : jsstring) :
  forallb isSpace ind = true -> forallb isDot (d :: R) = true ->
  (forall prev ind2 T, forallb isSpace ind2 = true ->
     exec (Bol :: r) prev (ind2 ++ d :: R ++ T) = None) ->
  forall prev x y T, ind ++ d :: R = x ++ y -> y <> [] ->
    exec (Bol :: r) (prev_at prev x) (y ++ T) = None.
Proof.
  intros Hind Hdots Hnone prev x y T E Hy.
  symmetry in E. apply app_eq_app in E as [l [[-> E]|[-> ->]]].
  - destruct l as [|d0 l].
    + rewrite app_nil_r. simpl in E. subst y.
      apply (Hnone _ [] T eq_refl).
    + simpl in E. injection E as <- ->. apply exec_bol_inside.
      apply at_line_start_inside; [done|].
      rewrite app_comm_cons, forallb_app in Hdots.
      by apply andb_prop in Hdots as [? _].
  - rewrite forallb_app in Hind. apply andb_prop in Hind as [_ Hl].
    rewrite <- app_assoc, <- app_comm_cons. by apply Hnone.
Qed.

(** Step 4 on a line. *)
Lemma ulist_line (l : list_line) :
  loose_line l = true ->
  line_step [StarG isSpace; Chr (ch "-"); PlusG isSpace; Open;
             StarG isDot; Close; Eol] li_tpl
    (source_line l) (after_ulist l).
Proof.
  intros Hl.
  destruct (loose_line_parts l Hl) as (Hind & Hm & (g & gp & Hgap & Hg & Hgp) & Hitm & Hd).
  pose proof (source_line_nonempty l Hl) as Hne.
  pose proof (fun prev => source_line_end l prev Hl) as Hend.
  unfold after_ulist, li_item. unfold source_line in *.
  destruct (mark l) as [|ds] eqn:Emark.
  - rewrite <- expand_li. apply line_step_match; [done|done|].
    intros prev T Hprev HT. rewrite Hgap. by apply exec_ulist_hyphen.
  - apply line_step_copy; [done|done|].
    simpl in Hm. apply andb_prop in Hm as [Hn Hds].
    destruct ds as [|d ds]; [done|]. simpl in Hds.
    apply andb_prop in Hds as [Hdg Hds].
    destruct (digit_facts d Hdg) as (E1 & E2 & _ & E3).
    cbn [marker_text]. rewrite <- !app_comm_cons.
    apply copy_positions; [done| |].
    + simpl. rewrite E2, !forallb_app, (digits_dots _ Hds), Hd.
      rewrite Hgap at 1. by rewrite (white_space_dots (g :: gp)) by (simpl; by rewrite Hg).
    + intros prev ind2 T Hind2. by apply exec_ulist_none.
Qed.

(** Step 5 on a line that went through step 4. *)
Lemma olist_line (l : list_line) :
  loose_line l = true ->
  line_step [StarG isSpace; PlusG isDigit; Chr (ch "."); PlusG isSpace;
             Open; StarG isDot; Close; Eol] li_tpl
    (after_ulist l) (li_item l).
Proof.
  intros Hl.
  destruct (loose_line_parts l Hl) as (Hind & Hm & (g & gp & Hgap & Hg & Hgp) & Hitm & Hd).
  pose proof (source_line_nonempty l Hl) as Hne.
  pose proof (fun prev => source_line_end l prev Hl) as Hend.
  pose proof (li_item_dots l Hl) as Hli.
  pose proof (fun prev => li_item_end l prev Hl) as Hliend.
  unfold after_ulist. unfold li_item, source_line in *.
  destruct (mark l) as [|ds] eqn:Emark.
  - apply line_step_copy; [done|done|].
    change (js "<li>" ++ item l ++ js "</li>")
      with ([] ++ ch "<" :: (js "li>" ++ item l ++ js "</li>")).
    apply copy_positions; [done|done|].
    intros prev ind2 T Hind2. by apply exec_olist_none.
  - rewrite <- expand_li.
    simpl in Hm. apply andb_prop in Hm as [Hn Hds].
    destruct ds as [|d ds]; [done|]. simpl in Hds.
    apply andb_prop in Hds as [Hdg Hds].
    apply line_step_match; [done|done|].
    intros prev T Hprev HT. rewrite Hgap. cbn [marker_text].
    by apply exec_olist_numbered.
Qed.

(** Steps 4 and 5 turn every line into a list item. *)
Lemma lists_of_lines (ls : list list_line) :
  ls <> [] -> forallb loose_line ls = true ->
  olist (ulist (join_lines (source_line <$> ls))) = join_lines (li_item <$> ls).
Proof.
  intros Hne Hwf. rewrite forallb_forall in Hwf.
  unfold olist, ulist, replace, olist_re, ulist_re.
  rewrite (scan_anchored_lines _ li_tpl (source_line <$> ls) (after_ulist <$> ls));
    [..|done].
  - apply scan_anchored_lines; [|by destruct ls|done].
    apply Forall2_fmap, Forall_Forall2_diag, Forall_forall.
    intros l Hin. apply olist_line, Hwf. by apply list_elem_of_In.
  - apply Forall2_fmap, Forall_Forall2_diag, Forall_forall.
    intros l Hin. apply ulist_line, Hwf. by apply list_elem_of_In.
  - by destruct ls.
Qed.

End ListLines.

(** ** Splitting into lines and the line walk over list items *)

Section Walk.

Lemma split_lines_line (x : jsstring) :
  ~ In LF x -> split_lines x = [x].
Proof.
  induction x as [|c x IH]; [done|]. intros H. simpl.
  destruct (N.eqb_spec c LF) as [->|_]; [destruct H; by left|].
  rewrite IH; [done|]. intros Hin. apply H. by right.
Qed.

Lemma split_lines_join (x : jsstring) (xs : list jsstring) :
  Forall (fun y => ~ In LF y) (x :: xs) ->
  split_lines (join_lines (x :: xs)) = x :: xs.
Proof.
  revert x. induction xs as [|x' xs IH]; intros x Hall.
  - apply split_lines_line. by inversion Hall.
  - change (join_lines (x :: x' :: xs)) with (x ++ LF :: join_lines (x' :: xs)).
    inversion Hall as [|? ? Hx Hxs]; subst.
    rewrite (split_lines_app x _ [] (split_lines (join_lines (x' :: xs))));
      [|done|by simpl].
    rewrite app_nil_r. f_equal. by apply IH.
Qed.

Lemma dots_no_LF (x : jsstring) : forallb isDot x = true -> ~ In LF x.
Proof.
  intros H Hin. rewrite forallb_forall in H. by apply (dot_not_LF LF (H LF Hin)).
Qed.

(** Inside a list, a list line is appended and the list stays open. *)
Lemma walk_list_lines (xs : list jsstring) :
  Forall (fun x => includes (js "<li>") x = true) xs ->
  forall html, foldl walk_line (html, true) xs = (html ++ concat xs, true).
Proof.
  induction 1 as [|x xs Hx Hxs IH]; intros html.
  - simpl. by rewrite app_nil_r.
  - cbn [foldl concat]. unfold walk_line at 2. rewrite Hx. cbn [negb].
    rewrite IH. by rewrite <- app_assoc.
Qed.

(** Lines that all hold a list item come out as one list. *)
Lemma wrap_list_lines (x : jsstring) (xs : list jsstring) :
  Forall (fun y => includes (js "<li>") y = true) (x :: xs) ->
  wrap_lines (x :: xs) = js "<ul>" ++ concat (x :: xs) ++ js "</ul>".
Proof.
  intros Hall. inversion Hall as [|? ? Hx Hxs]; subst.
  unfold wrap_lines. cbn [foldl]. unfold walk_line at 2. rewrite Hx. cbn [negb].
  rewrite (walk_list_lines xs Hxs). cbn [concat].
  by rewrite <- !app_assoc.
Qed.

Lemma includes_none (b : jsstring) :
  forallb isSpace b = true -> includes (js "<li>") b = false.
Proof.
  induction b as [|c b IH]; [done|]. cbn [forallb].
  intros [Hc Hb]%andb_prop. cbn [includes]. rewrite (IH Hb).
  change (startsWith (js "<li>") (c :: b))
    with ((ch "<" =? c) && startsWith (js "li>") b).
  destruct (N.eqb_spec (ch "<") c) as [<-|_]; [|done].
  vm_compute in Hc. discriminate.
Qed.

Lemma trim_all_space (b : jsstring) :
  forallb isSpace b = true -> trim b = [].
Proof.
  intros Hb. unfold trim.
  assert (E : trimStart b = []).
  { induction b as [|c b IH]; [done|]. simpl in *.
    apply andb_prop in Hb as [-> Hb]. by apply IH. }
  by rewrite E.
Qed.

End Walk.

Section MarkerLines.

Lemma processed_loose (l : list_line) :
  loose_line l = true -> loose_line (processed l) = true.
Proof.
  intros Hl.
  destruct (loose_line_parts l Hl) as (Hind & Hm & (g & gp & Hgap & Hg & Hgp) & Hitm & Hd).
  destruct (inline_text (item l) Hitm Hd) as [H1 H2].
  unfold loose_line, processed. cbn [indent mark gap item].
  rewrite Hind, Hm, Hgap, H1, H2. simpl. by rewrite Hg, Hgp.
Qed.

Lemma inline_source_line (l : list_line) :
  loose_line l = true -> inline (source_line l) = source_line (processed l).
Proof.
  intros Hl. rewrite !source_line_header.
  by rewrite (inline_after_header _ _ (header_chars l Hl)).
Qed.

Lemma inline_source_lines (ls : list list_line) :
  forallb loose_line ls = true ->
  inline <$> (source_line <$> ls) = source_line <$> (processed <$> ls).
Proof.
  induction ls as [|l ls IH]; [done|]. cbn [forallb].
  intros [Hl Hls]%andb_prop. rewrite !fmap_cons.
  by rewrite (inline_source_line l Hl), IH.
Qed.

Lemma processed_all_loose (ls : list list_line) :
  forallb loose_line ls = true -> forallb loose_line (processed <$> ls) = true.
Proof.
  induction ls as [|l ls IH]; [done|]. cbn [forallb].
  intros [Hl Hls]%andb_prop. rewrite fmap_cons. cbn [forallb].
  by rewrite (processed_loose l Hl), IH.
Qed.

(** Steps 1 to 5 on a text all of whose lines carry a marker and an item
    text: each line has become the list item of its text. *)
Lemma items_of_lines (ls : list list_line) :
  ls <> [] -> forallb loose_line ls = true ->
  olist (ulist (italic (bold (escapeHtml (join_lines (source_line <$> ls)))))) =
  join_lines (rendered_item <$> ls).
Proof.
  intros Hne Hwf. change (italic (bold (escapeHtml ?x))) with (inline x).
  destruct ls as [|l ls]; [done|].
  rewrite fmap_cons, inline_join_lines, <- fmap_cons.
  rewrite (inline_source_lines _ Hwf).
  rewrite lists_of_lines; [|done|by apply processed_all_loose].
  by rewrite <- list_fmap_compose.
Qed.

Lemma rendered_item_li (l : list_line) :
  includes (js "<li>") (rendered_item l) = true.
Proof. reflexivity. Qed.

Lemma rendered_item_no_LF (l : list_line) :
  loose_line l = true -> ~ In LF (rendered_item l).
Proof.
  intros Hl. apply dots_no_LF.
  apply (li_item_dots (processed l)). by apply processed_loose.
Qed.

(** The whole of [parseMarkdown] on such a text: one list that holds the
    items of the lines. *)
Lemma one_list_of_lines (ls : list list_line) :
  ls <> [] -> forallb loose_line ls = true ->
  parseMarkdown (join_lines (source_line <$> ls)) =
  js "<ul>" ++ concat (rendered_item <$> ls) ++ js "</ul>".
Proof.
  intros Hne Hwf. unfold parseMarkdown.
  assert (Htext : nonempty (join_lines (source_line <$> ls)) = true).
  { destruct ls as [|l ls]; [done|]. cbn [forallb] in Hwf.
    apply andb_prop in Hwf as [Hl _].
    pose proof (source_line_nonempty l Hl) as Hs. rewrite fmap_cons.
    destruct (source_line l) as [|c x]; [done|].
    by destruct (source_line <$> ls). }
  rewrite Htext. cbn [negb].
  rewrite (items_of_lines ls Hne Hwf).
  destruct ls as [|l ls]; [done|]. rewrite fmap_cons.
  assert (Hall : Forall (fun l => loose_line l = true) (l :: ls)).
  { apply Forall_forall. intros x Hx. rewrite forallb_forall in Hwf.
    apply Hwf. by apply list_elem_of_In. }
  rewrite split_lines_join.
  - apply wrap_list_lines. rewrite <- fmap_cons. apply Forall_fmap.
    apply Forall_forall. intros x _. apply rendered_item_li.
  - rewrite <- fmap_cons. apply Forall_fmap.
    eapply Forall_impl; [exact Hall|]. intros x Hx. by apply rendered_item_no_LF.
Qed.

Lemma all_wf_loose (ls : list list_line) :
  forallb wf_line ls = true -> forallb loose_line ls = true.
Proof.
  induction ls as [|l ls IH]; [done|]. cbn [forallb].
  intros [Hl Hls]%andb_prop. by rewrite (wf_line_loose l Hl), IH.
Qed.

End MarkerLines.

(** C5: the claim fails on the code where the text of an item is empty.
    In the two lines [- ] and [- two] each line carries a marker, but the
    white space behind the first hyphen is matched across the line feed and
    the group then takes the whole second line: the output is one list with
    the single item [- two], not the list of an empty item and the item
    [two].  The same pattern gives an empty list item where the line with
    the empty item is the only line or the last one, the numbered
    pattern behaves like the hyphen one, and two lines with item texts give
    the list of the two items. *)
Theorem C5_empty_item_swallows_next_line :
  empty_item_then_two = join_lines (source_line <$> empty_item_lines) /\
  js "<ul>" ++ concat (rendered_item <$> empty_item_lines) ++ js "</ul>" =
    js "<ul><li></li><li>two</li></ul>" /\
  parseMarkdown empty_item_then_two = js "<ul><li>- two</li></ul>" /\
  occurrences (js "<li>") (parseMarkdown empty_item_then_two) = 1%nat /\
  ulist empty_item_then_two = js "<li>- two</li>" /\
  parseMarkdown (js "- ") = js "<ul><li></li></ul>" /\
  parseMarkdown (js "- two" ++ [LF] ++ js "- ") =
    js "<ul><li>two</li><li></li></ul>" /\
  parseMarkdown (js "1. " ++ [LF] ++ js "2. two") = js "<ul><li>2. two</li></ul>" /\
  parseMarkdown one_two = js "<ul><li>one</li><li>two</li></ul>".
Proof.
  repeat split; vm_compute; reflexivity.
Qed.




(** ** Lazy emphasis *)

Section Emphasis.

(** A match of the single-star pattern: a star, a text without star and
    without line terminator, a star.  The span ends at the next star. *)
Lemma italic_match_shape prev s n cap :
  exec italic_re prev s = Some (n, cap) ->
  exists w rest,
    s = ch "*" :: w ++ ch "*" :: rest /\ cap = Some w /\
    n = S (S (length w)) /\ forallb isDot w = true /\ ~ In (ch "*") w.
Proof.
  unfold exec, italic_re. cbn [mseq]. intros H.
  destruct s as [|d s]; [done|].
  destruct (N.eqb_spec (ch "*") d) as [<-|]; [|done].
  apply lazy_first in H as (w & t & -> & Hw & Hk & Hmin).
  cbn [mseq] in Hk. destruct t as [|d' t]; [done|].
  destruct (N.eqb_spec (ch "*") d') as [<-|]; [|done].
  revert Hk. finish_state. rewrite app_nil_r, reverse_involutive.
  intros [= <- <-]. exists w, t. repeat split; [done|].
  intros Hin. apply in_split in Hin as (x & y & ->).
  specialize (Hmin x (ch "*" :: y) eq_refl ltac:(done)).
  cbn [mseq app] in Hmin. by rewrite N.eqb_refl in Hmin.
Qed.

(** A match of the double-star pattern: two stars, a text without line
    terminator, two stars, where the closing pair is the first pair of
    stars behind the opening one. *)
Lemma bold_match_shape prev s n cap :
  exec bold_re prev s = Some (n, cap) ->
  exists w rest,
    s = js "**" ++ w ++ js "**" ++ rest /\ cap = Some w /\
    n = (length w + 4)%nat /\ forallb isDot w = true /\
    forall x y, w = x ++ y -> y <> [] ->
      startsWith (js "**") (y ++ js "**" ++ rest) = false.
Proof.
  unfold exec, bold_re. cbn [mseq]. intros H.
  destruct s as [|d1 s]; [done|].
  destruct (N.eqb_spec (ch "*") d1) as [<-|]; [|done].
  destruct s as [|d2 s]; [done|].
  destruct (N.eqb_spec (ch "*") d2) as [<-|]; [|done].
  apply lazy_first in H as (w & t & -> & Hw & Hk & Hmin).
  cbn [mseq] in Hk. destruct t as [|d3 t]; [done|].
  destruct (N.eqb_spec (ch "*") d3) as [<-|]; [|done].
  destruct t as [|d4 t]; [done|].
  destruct (N.eqb_spec (ch "*") d4) as [<-|]; [|done].
  revert Hk. finish_state. rewrite app_nil_r, reverse_involutive.
  intros [= <- <-]. exists w, t. repeat split; [lia|done|].
  intros x y -> Hy. specialize (Hmin x y eq_refl Hy).
  cbn [mseq] in Hmin.
  change (js "**" ++ t) with (ch "*" :: ch "*" :: t).
  change (js "**") with [ch "*"; ch "*"].
  destruct (y ++ ch "*" :: ch "*" :: t) as [|e1 [|e2 u]]; [done|..].
  - cbn [startsWith]. by rewrite andb_false_r.
  - cbn [startsWith]. destruct (N.eqb_spec (ch "*") e1) as [<-|]; [|done].
    destruct (N.eqb_spec (ch "*") e2) as [<-|]; [|done]. done.
Qed.

End Emphasis.

(** C6: emphasis is matched lazily, and the double-star pattern is applied
    before the single-star pattern.  The text [**bold**] is rendered with
    [bold] between the tags of strong emphasis; in [*a* and *b*] each of
    [a] and [b] is put between the tags of emphasis, in two separate spans,
    where a greedy group would have made one span from the first star to
    the last; the single-star pattern alone would have taken the stars of
    [**bold**] pairwise.  In general a span of emphasis ends at the next
    star, and a span of strong emphasis at the next pair of stars. *)
Theorem C6_emphasis_lazy_double_first :
  (bold (js "**bold**") = js "<strong>bold</strong>" /\
   parseMarkdown (js "**bold**") = js "<p><strong>bold</strong></p>" /\
   includes (js "<strong>bold</strong>") (parseMarkdown (js "**bold**")) = true) /\
  (italic (js "*a* and *b*") = js "<em>a</em> and <em>b</em>" /\
   parseMarkdown (js "*a* and *b*") = js "<p><em>a</em> and <em>b</em></p>" /\
   occurrences (js "<em>") (parseMarkdown (js "*a* and *b*")) = 2%nat) /\
  (replace italic_greedy_re em_tpl (js "*a* and *b*") = js "<em>a* and *b</em>" /\
   italic (js "**bold**") = js "<em></em>bold<em></em>") /\
  (forall prev s n cap,
     exec italic_re prev s = Some (n, cap) ->
     exists w rest,
       s = ch "*" :: w ++ ch "*" :: rest /\ cap = Some w /\
       n = S (S (length w)) /\ forallb isDot w = true /\ ~ In (ch "*") w) /\
  (forall prev s n cap,
     exec bold_re prev s = Some (n, cap) ->
     exists w rest,
       s = js "**" ++ w ++ js "**" ++ rest /\ cap = Some w /\
       n = (length w + 4)%nat /\ forallb isDot w = true /\
       forall x y, w = x ++ y -> y <> [] ->
         startsWith (js "**") (y ++ js "**" ++ rest) = false).
Proof.
  split; [repeat split; vm_compute; reflexivity|].
  split; [repeat split; vm_compute; reflexivity|].
  split; [repeat split; vm_compute; reflexivity|].
  split; [apply italic_match_shape|apply bold_match_shape].
Qed.

Lemma C6_emphasis_witness :
  exec italic_re None (js "*a* and *b*") = Some (3%nat, Some (js "a")) /\
  exists w rest,
    js "*a* and *b*" = ch "*" :: w ++ ch "*" :: rest /\ Some (js "a") = Some w /\
    3%nat = S (S (length w)) /\ forallb isDot w = true /\ ~ In (ch "*") w.
Proof.
  assert (H : exec italic_re None (js "*a* and *b*") = Some (3%nat, Some (js "a")))
    by reflexivity.
  split; [exact H|].
  exact (proj1 (proj2 (proj2 (proj2 C6_emphasis_lazy_double_first))) _ _ _ _ H).
Defined.

(** * Further properties *)

(** ** The submit handler on every outcome *)

Section Cycle.

Variable net : list turn -> fetch_outcome.

(** The three ways a submission with non-blank input ends. *)
Lemma submit_cycle_end (p : page) :
  trim (input_value p) <> [] ->
  submit net p =
  match raised (net (sent p)) with
  | Some e => cycle_end p (TextContent failure_text) (sent p) (console p ++ [e])
  | None =>
      match result_string (net (sent p)) with
      | Some (c :: s) =>
          cycle_end p (InnerHTML (parseMarkdown (c :: s)))
            (sent p ++ [Turn Model (c :: s)]) (console p)
      | _ => cycle_end p (TextContent no_response_text) (sent p) (console p)
      end
  end.
Proof.
  intros Hne. unfold cycle_end, sent. run_handler.
  destruct (trim (input_value p)) as [|c t] eqn:E; [done|]. page_simpl.
  destruct (net _) as [|status [data|]]; cbn [raised result_string]; page_simpl.
  - by rewrite alter_last_message.
  - destruct (response_ok status); page_simpl;
      [|by rewrite alter_last_message].
    destruct (truthy data) eqn:Hd; page_simpl;
      [|by rewrite alter_last_message].
    destruct (get_result data) as [| |b|z|s|items|props] eqn:Hr;
      unfold parseMarkdown_dyn; page_simpl;
      try (by rewrite alter_last_message).
    + destruct b; page_simpl; by rewrite alter_last_message.
    + destruct (z =? 0)%Z; page_simpl; by rewrite alter_last_message.
    + destruct s as [|c' s]; page_simpl; by rewrite alter_last_message.
  - destruct (response_ok status); page_simpl; by rewrite alter_last_message.
Qed.

Lemma on_submit_returns (p : page) : fst (on_submit net p) = inr tt.
Proof.
  run_handler.
  destruct (trim (input_value p)) as [|c t] eqn:E; [done|]. page_simpl.
  destruct (net _) as [|status [data|]]; page_simpl; [done| |].
  - destruct (response_ok status); page_simpl; [|done].
    destruct (truthy data); page_simpl; [|done].
    destruct (truthy (get_result data)); page_simpl; [|done].
    destruct (parseMarkdown_dyn (get_result data)); page_simpl; [done|].
    by destruct (get_result data).
  - by destruct (response_ok status).
Qed.

End Cycle.

Lemma trim_nil : trim [] = [].
Proof. reflexivity. Qed.

(** X1: whatever makes the [try] block throw (a rejected fetch, a status
    that is not a success, a body that does not parse, a truthy result that
    is not a string), the cycle ends the same way: the placeholder shows
    the failure text, the store holds the user turn and no model turn, the
    exception is logged once and the controls are enabled. *)
Theorem X1_every_exception_ends_in_failure_text
    (net : list turn -> fetch_outcome) (p : page) (e : exn) :
  trim (input_value p) <> [] ->
  raised (net (sent p)) = Some e ->
  chatBox (submit net p) =
    chatBox p ++ [Message User (TextContent (trim (input_value p)));
                  Message Model (TextContent failure_text)] /\
  conversationHelper (submit net p) =
    conversationHelper p ++ [Turn User (trim (input_value p))] /\
  console (submit net p) = console p ++ [e] /\
  input_disabled (submit net p) = false /\
  submit_disabled (submit net p) = false.
Proof.
  intros Hne He. rewrite (submit_cycle_end net p Hne), He. repeat split.
Qed.

Lemma X1_exception_witness :
  trim (input_value hello_page) <> [] /\
  raised (net_body (Some (VObject {[ js "result" := VNumber 5 ]}))
            (sent hello_page)) = Some TypeError /\
  raised (net_body None (sent hello_page)) = Some JsonError /\
  chatBox (submit (net_body (Some (VObject {[ js "result" := VNumber 5 ]})))
             hello_page) =
    chatBox hello_page ++
    [Message User (TextContent (trim (input_value hello_page)));
     Message Model (TextContent failure_text)] /\
  console (submit (net_body None) hello_page) = console hello_page ++ [JsonError].
Proof.
  assert (H : trim (input_value hello_page) <> []) by (vm_compute; discriminate).
  split; [exact H|]. split; [reflexivity|]. split; [reflexivity|]. split.
  - exact (proj1 (X1_every_exception_ends_in_failure_text
                    (net_body (Some (VObject {[ js "result" := VNumber 5 ]})))
                    hello_page TypeError H eq_refl)).
  - exact (proj1 (proj2 (proj2 (X1_every_exception_ends_in_failure_text
                    (net_body None) hello_page JsonError H eq_refl)))).
Defined.

(** X2: when the fetch resolves with a success status and a body that
    parses but holds no truthy result (no [result] key, [null], zero, the
    empty string, or a falsy body), the placeholder shows the no-response
    text, no model turn is stored and nothing is logged. *)
Theorem X2_missing_result_shows_no_response
    (net : list turn -> fetch_outcome) (p : page) :
  trim (input_value p) <> [] ->
  lacks_result (net (sent p)) = true ->
  chatBox (submit net p) =
    chatBox p ++ [Message User (TextContent (trim (input_value p)));
                  Message Model (TextContent no_response_text)] /\
  conversationHelper (submit net p) =
    conversationHelper p ++ [Turn User (trim (input_value p))] /\
  console (submit net p) = console p.
Proof.
  intros Hne Hl. rewrite (submit_cycle_end net p Hne).
  destruct (net (sent p)) as [|status [data|]]; try done.
  cbn [lacks_result raised result_string] in *.
  apply andb_prop in Hl as [-> Hl]. apply negb_true_iff in Hl.
  cbn [negb andb]. rewrite Hl.
  destruct (truthy data); cbn [andb] in *; [|by repeat split].
  by destruct (get_result data) as [| | | |[|c s]| |].
Qed.

Lemma X2_missing_result_witness :
  trim (input_value hello_page) <> [] /\
  lacks_result (net_body (Some (VObject ∅)) (sent hello_page)) = true /\
  chatBox (submit (net_body (Some (VObject ∅))) hello_page) =
    chatBox hello_page ++
    [Message User (TextContent (trim (input_value hello_page)));
     Message Model (TextContent no_response_text)].
Proof.
  assert (H : trim (input_value hello_page) <> []) by (vm_compute; discriminate).
  split; [exact H|]. split; [reflexivity|].
  exact (proj1 (X2_missing_result_shows_no_response
                  (net_body (Some (VObject ∅))) hello_page H eq_refl)).
Defined.

(** X3: a submission with non-blank input adds exactly two elements to the
    chat box: the trimmed user text, as text, and the placeholder, which
    never stays pending.  The placeholder ends as the failure text or the
    no-response text, with the user turn alone added to the store, or as
    the rendered result, with the user turn and the model turn added. *)
Theorem X3_placeholder_always_resolved
    (net : list turn -> fetch_outcome) (p : page) :
  trim (input_value p) <> [] ->
  exists body,
    chatBox (submit net p) =
      chatBox p ++ [Message User (TextContent (trim (input_value p)));
                    Message Model body] /\
    body <> TextContent (js "Thinking...") /\
    ((body = TextContent failure_text /\
      conversationHelper (submit net p) = sent p) \/
     (body = TextContent no_response_text /\
      conversationHelper (submit net p) = sent p) \/
     (exists s, s <> [] /\ result_string (net (sent p)) = Some s /\
        body = InnerHTML (parseMarkdown s) /\
        conversationHelper (submit net p) = sent p ++ [Turn Model s])).
Proof.
  intros Hne. rewrite (submit_cycle_end net p Hne).
  destruct (raised (net (sent p))) as [e|].
  { exists (TextContent failure_text). repeat split; [|by left].
    intros H. vm_compute in H. discriminate. }
  destruct (result_string (net (sent p))) as [[|c s]|] eqn:Hr.
  - exists (TextContent no_response_text). repeat split; [|by right; left].
    intros H. vm_compute in H. discriminate.
  - exists (InnerHTML (parseMarkdown (c :: s))). repeat split; [done|].
    right. right. by exists (c :: s).
  - exists (TextContent no_response_text). repeat split; [|by right; left].
    intros H. vm_compute in H. discriminate.
Qed.

Lemma X3_placeholder_witness :
  trim (input_value hello_page) <> [] /\
  exists body,
    chatBox (submit net_down hello_page) =
      chatBox hello_page ++
      [Message User (TextContent (trim (input_value hello_page)));
       Message Model body] /\
    body <> TextContent (js "Thinking...").
Proof.
  assert (H : trim (input_value hello_page) <> []) by (vm_compute; discriminate).
  split; [exact H|].
  destruct (X3_placeholder_always_resolved net_down hello_page H)
    as (body & H1 & H2 & _).
  exists body. split; [exact H1|exact H2].
Defined.

(** X4: a submission with non-blank input issues exactly one request,
    whatever comes back, and the request carries the whole store with the
    new user turn at its end. *)
Theorem X4_one_request_with_full_history
    (net : list turn -> fetch_outcome) (p : page) :
  trim (input_value p) <> [] ->
  requests (submit net p) =
    requests p ++ [conversationHelper p ++ [Turn User (trim (input_value p))]].
Proof.
  intros Hne. rewrite (submit_cycle_end net p Hne).
  destruct (raised (net (sent p))); [done|].
  by destruct (result_string (net (sent p))) as [[|c s]|].
Qed.

Lemma X4_one_request_witness :
  trim (input_value typed_page) <> [] /\
  requests (submit net_down typed_page) =
    [[Turn User (js "old"); Turn User (js "Hi")]].
Proof.
  assert (H : trim (input_value typed_page) <> []) by (vm_compute; discriminate).
  split; [exact H|].
  exact (X4_one_request_with_full_history net_down typed_page H).
Defined.

(** X5: the handler only appends.  On every page and for every backend,
    the messages shown before are the first messages shown after, in the
    same order and with the same content, and likewise for the turns of
    the store and for the requests issued. *)
Theorem X5_submit_only_appends (net : list turn -> fetch_outcome) (p : page) :
  chatBox p `prefix_of` chatBox (submit net p) /\
  conversationHelper p `prefix_of` conversationHelper (submit net p) /\
  requests p `prefix_of` requests (submit net p) /\
  console p `prefix_of` console (submit net p).
Proof.
  destruct (trim (input_value p)) as [|c t] eqn:E.
  { by rewrite (submit_blank net p E). }
  rewrite (submit_cycle_end net p) by (by rewrite E).
  unfold cycle_end, sent.
  destruct (raised (net _)).
  { cbn [chatBox conversationHelper requests console].
    repeat split; by apply prefix_app_r. }
  destruct (result_string (net _)) as [[|c' s]|];
    cbn [chatBox conversationHelper requests console];
    repeat split; try done; try (by apply prefix_app_r).
  rewrite <- app_assoc. by apply prefix_app_r.
Qed.

(** X6: the handler clears the input box, so a second submit event that
    follows without typing changes nothing, whatever the backend would
    answer. *)
Theorem X6_resubmit_without_typing_is_noop
    (net net' : list turn -> fetch_outcome) (p : page) :
  submit net' (submit net p) = submit net p.
Proof.
  destruct (trim (input_value p)) as [|c t] eqn:E.
  { rewrite (submit_blank net p E). by apply submit_blank. }
  apply submit_blank. rewrite (submit_cycle_end net p) by (by rewrite E).
  destruct (raised (net _)); [done|].
  by destruct (result_string (net _)) as [[|c' s]|].
Qed.

(** X7: no exception leaves the handler: on every page and for every
    backend it runs to its end. *)
Theorem X7_handler_never_throws (net : list turn -> fetch_outcome) (p : page) :
  fst (on_submit net p) = inr tt.
Proof. apply on_submit_returns. Qed.

(** X8: the chat and the theme do not interfere: submitting leaves the
    theme, the icon and the storage as they are, a click on the toggle
    leaves the chat as it is, and the two handlers commute. *)
Theorem X8_submit_and_toggle_commute
    (net : list turn -> fetch_outcome) (p : page) :
  submit net (toggle_click p) = toggle_click (submit net p) /\
  data_theme (submit net p) = data_theme p /\
  toggle_text (submit net p) = toggle_text p /\
  localStorage (submit net p) = localStorage p /\
  chatBox (toggle_click p) = chatBox p /\
  conversationHelper (toggle_click p) = conversationHelper p /\
  input_value (toggle_click p) = input_value p.
Proof.
  split; [|split; [|split; [|split; [|done]]]].
  - destruct (trim (input_value p)) as [|c t] eqn:E.
    { rewrite (submit_blank net p E). by apply submit_blank. }
    assert (E' : trim (input_value (toggle_click p)) <> []) by (simpl; by rewrite E).
    rewrite (submit_cycle_end net _ E').
    rewrite (submit_cycle_end net p) by (by rewrite E).
    change (sent (toggle_click p)) with (sent p).
    destruct (raised (net (sent p))); [done|].
    by destruct (result_string (net (sent p))) as [[|c' s]|].
  - destruct (trim (input_value p)) as [|c t] eqn:E.
    { by rewrite (submit_blank net p E). }
    rewrite (submit_cycle_end net p) by (by rewrite E).
    destruct (raised (net _)); [done|].
    by destruct (result_string (net _)) as [[|c' s]|].
  - destruct (trim (input_value p)) as [|c t] eqn:E.
    { by rewrite (submit_blank net p E). }
    rewrite (submit_cycle_end net p) by (by rewrite E).
    destruct (raised (net _)); [done|].
    by destruct (result_string (net _)) as [[|c' s]|].
  - destruct (trim (input_value p)) as [|c t] eqn:E.
    { by rewrite (submit_blank net p E). }
    rewrite (submit_cycle_end net p) by (by rewrite E).
    destruct (raised (net _)); [done|].
    by destruct (result_string (net _)) as [[|c' s]|].
Qed.

(** X9: the history is threaded through the cycles.  After a cycle that
    ended with the result [s1], the request of the next submission carries
    the store of before, the first user turn, the model turn with [s1] and
    the new user turn, in this order. *)
Theorem X9_next_request_carries_exchange
    (net net2 : list turn -> fetch_outcome) (p : page) (s1 t2 : jsstring) :
  trim (input_value p) <> [] ->
  result_string (net (sent p)) = Some s1 ->
  s1 <> [] ->
  trim t2 <> [] ->
  requests (submit net2 (type_text t2 (submit net p))) =
    requests p ++
    [conversationHelper p ++ [Turn User (trim (input_value p))];
     conversationHelper p ++
     [Turn User (trim (input_value p)); Turn Model s1; Turn User (trim t2)]].
Proof.
  intros Hne Hr Hs Ht.
  assert (E : submit net p =
              cycle_end p (InnerHTML (parseMarkdown s1))
                (sent p ++ [Turn Model s1]) (console p)).
  { rewrite (submit_cycle_end net p Hne), Hr.
    destruct s1 as [|c s]; [done|].
    destruct (raised (net (sent p))) as [e|] eqn:He; [|done].
    exfalso. destruct (net (sent p)) as [|status [data|]]; try done.
    cbn [raised result_string] in *.
    destruct (response_ok status); [|done]. cbn [negb andb] in *.
    destruct (truthy data); [|done]. cbn [andb] in *.
    destruct (get_result data); try done. injection Hr as ->.
    by cbn [truthy nonempty] in He. }
  rewrite (submit_cycle_end net2) by (by rewrite E).
  rewrite E. unfold type_text, cycle_end, sent.
  cbn [set_input_value input_value chatBox conversationHelper requests console
       data_theme toggle_text localStorage input_disabled submit_disabled
       input_focused].
  destruct (raised (net2 _)); cbn [requests];
    [|destruct (result_string (net2 _)) as [[|c' s]|]; cbn [requests]];
    by rewrite <- !app_assoc.
Qed.

Lemma X9_next_request_witness :
  trim (input_value hello_page) <> [] /\
  result_string (net_reply (js "Hi!") (sent hello_page)) = Some (js "Hi!") /\
  js "Hi!" <> [] /\
  trim (js "more") <> [] /\
  requests (submit net_down (type_text (js "more")
                               (submit (net_reply (js "Hi!")) hello_page))) =
    [[Turn User (js "Hello")];
     [Turn User (js "Hello"); Turn Model (js "Hi!"); Turn User (js "more")]].
Proof.
  assert (H1 : trim (input_value hello_page) <> []) by (vm_compute; discriminate).
  assert (H3 : js "Hi!" <> []) by (vm_compute; discriminate).
  assert (H4 : trim (js "more") <> []) by (vm_compute; discriminate).
  split; [exact H1|]. split; [reflexivity|]. split; [exact H3|].
  split; [exact H4|].
  exact (X9_next_request_carries_exchange (net_reply (js "Hi!")) net_down
           hello_page (js "Hi!") (js "more") H1 eq_refl H3 H4).
Defined.

(** ** The theme *)

Lemma light_not_dark : js "light" <> js "dark".
Proof. vm_compute. discriminate. Qed.

Lemma toggle_settles (p : page) : theme_settled (toggle_click p).
Proof.
  unfold theme_settled, toggle_click, set_theme.
  cbn [data_theme localStorage toggle_text].
  rewrite lookup_insert_eq. repeat split. case_decide; auto.
Qed.

(** X10: on a first visit, or when the saved value is the empty string,
    the page loads with the light theme and the moon icon; loading writes
    nothing to the storage and starts with an empty conversation. *)
Theorem X10_load_defaults_to_light (markup : page)
    (store : gmap jsstring jsstring) :
  store !! js "theme" = None \/ store !! js "theme" = Some [] ->
  data_theme (load markup store) = js "light" /\
  toggle_text (load markup store) = MOON /\
  localStorage (load markup store) = store /\
  conversationHelper (load markup store) = [].
Proof.
  intros H. unfold load, set_theme, set_conversation, savedTheme.
  cbn [data_theme toggle_text localStorage conversationHelper].
  by destruct H as [-> | ->].
Qed.

Lemma X10_load_witness :
  ((∅ : gmap jsstring jsstring) !! js "theme" = None \/
   (∅ : gmap jsstring jsstring) !! js "theme" = Some []) /\
  data_theme (load hello_page ∅) = js "light" /\
  toggle_text (load hello_page ∅) = MOON.
Proof.
  assert (H : (∅ : gmap jsstring jsstring) !! js "theme" = None \/
              (∅ : gmap jsstring jsstring) !! js "theme" = Some [])
    by (left; reflexivity).
  split; [exact H|].
  destruct (X10_load_defaults_to_light hello_page ∅ H) as (H1 & H2 & _).
  split; [exact H1|exact H2].
Defined.

(** X11: the choice survives a reload.  After a click on the toggle,
    loading the page again from the storage the click left gives the theme
    and the icon that the click displayed. *)
Theorem X11_click_survives_reload (p markup : page) :
  data_theme (load markup (localStorage (toggle_click p))) =
    data_theme (toggle_click p) /\
  toggle_text (load markup (localStorage (toggle_click p))) =
    toggle_text (toggle_click p).
Proof.
  unfold load, set_conversation, savedTheme, toggle_click, set_theme.
  cbn [data_theme toggle_text localStorage]. rewrite lookup_insert_eq.
  by case_decide.
Qed.

(** X12: after a click, whatever the state before it, the displayed theme
    is light or dark, the storage holds it and the toggle shows its icon.
    A displayed theme other than light, known or not, leads to light. *)
Theorem X12_click_settles_theme (p : page) :
  theme_settled (toggle_click p) /\
  (data_theme p <> js "light" -> data_theme (toggle_click p) = js "light") /\
  (data_theme p = js "light" -> data_theme (toggle_click p) = js "dark").
Proof.
  split; [apply toggle_settles|].
  unfold toggle_click, set_theme. cbn [data_theme].
  split; intros H; by case_decide.
Qed.

Lemma X12_click_witness :
  data_theme (load hello_page blue_store) <> js "light" /\
  data_theme (load hello_page blue_store) = js "blue" /\
  data_theme (toggle_click (load hello_page blue_store)) = js "light".
Proof.
  assert (H : data_theme (load hello_page blue_store) <> js "light")
    by (vm_compute; discriminate).
  split; [exact H|]. split; [reflexivity|].
  exact (proj1 (proj2 (X12_click_settles_theme (load hello_page blue_store))) H).
Defined.

(** X13: clicks count by parity.  From a displayed theme that is light or
    dark, an even number of clicks displays it again and an odd number
    displays the other one. *)
Theorem X13_clicks_by_parity (p : page) (n : nat) :
  data_theme p = js "light" \/ data_theme p = js "dark" ->
  data_theme (Nat.iter n toggle_click p) =
    if Nat.even n then data_theme p else other_theme (data_theme p).
Proof.
  intros Hv.
  assert (Hoo : other_theme (other_theme (data_theme p)) = data_theme p).
  { unfold other_theme. pose proof light_not_dark.
    destruct Hv as [-> | ->]; repeat case_decide; congruence. }
  assert (Hstep : forall q, data_theme (toggle_click q) = other_theme (data_theme q))
    by done.
  induction n as [|n IH]; [done|].
  change (Nat.iter (S n) toggle_click p)
    with (toggle_click (Nat.iter n toggle_click p)).
  rewrite Hstep, IH, Nat.even_succ, <- Nat.negb_even.
  destruct (Nat.even n); [done|]. by rewrite Hoo.
Qed.

Lemma X13_clicks_witness :
  (data_theme dark_page = js "light" \/ data_theme dark_page = js "dark") /\
  data_theme (Nat.iter 5 toggle_click dark_page) = js "light" /\
  data_theme (Nat.iter 6 toggle_click dark_page) = js "dark".
Proof.
  assert (H : data_theme dark_page = js "light" \/ data_theme dark_page = js "dark")
    by (right; reflexivity).
  split; [exact H|]. split.
  - exact (X13_clicks_by_parity dark_page 5 H).
  - exact (X13_clicks_by_parity dark_page 6 H).
Defined.

(** X14: a saved value that is neither light nor dark is displayed as it
    is, with the moon icon; the first click then sets the light theme and
    the icon stays the moon. *)
Theorem X14_unknown_saved_theme (markup : page)
    (store : gmap jsstring jsstring) (v : jsstring) :
  store !! js "theme" = Some v ->
  v <> [] -> v <> js "light" -> v <> js "dark" ->
  data_theme (load markup store) = v /\
  toggle_text (load markup store) = MOON /\
  data_theme (toggle_click (load markup store)) = js "light" /\
  toggle_text (toggle_click (load markup store)) = MOON.
Proof.
  intros Hs Hne Hl Hd. pose proof light_not_dark.
  unfold toggle_click, load, set_theme, set_conversation, savedTheme, theme_icon.
  cbn [data_theme toggle_text localStorage]. rewrite Hs.
  destruct v as [|c v]; [done|]. cbn [nonempty].
  by repeat case_decide.
Qed.

Lemma X14_unknown_witness :
  blue_store !! js "theme" = Some (js "blue") /\
  js "blue" <> [] /\ js "blue" <> js "light" /\ js "blue" <> js "dark" /\
  data_theme (load hello_page blue_store) = js "blue" /\
  toggle_text (toggle_click (load hello_page blue_store)) = MOON.
Proof.
  assert (H1 : blue_store !! js "theme" = Some (js "blue")) by reflexivity.
  assert (H2 : js "blue" <> []) by (vm_compute; discriminate).
  assert (H3 : js "blue" <> js "light") by (vm_compute; discriminate).
  assert (H4 : js "blue" <> js "dark") by (vm_compute; discriminate).
  split; [exact H1|]. split; [exact H2|]. split; [exact H3|]. split; [exact H4|].
  destruct (X14_unknown_saved_theme hello_page blue_store (js "blue") H1 H2 H3 H4)
    as (Ha & _ & _ & Hb).
  split; [exact Ha|exact Hb].
Defined.

(** X15: the settled state of the theme is kept by the submit handler: a
    submission, whatever its outcome, leaves the displayed theme equal to
    the persisted one, with the matching icon. *)
Theorem X15_submit_keeps_theme_settled
    (net : list turn -> fetch_outcome) (p : page) :
  theme_settled p -> theme_settled (submit net p).
Proof.
  intros H. destruct (trim (input_value p)) as [|c t] eqn:E.
  { by rewrite (submit_blank net p E). }
  rewrite (submit_cycle_end net p) by (by rewrite E).
  destruct (raised (net _)); [done|].
  by destruct (result_string (net _)) as [[|c' s]|].
Qed.

Lemma X15_submit_theme_witness :
  theme_settled (type_text (js "Hi") dark_page) /\
  trim (input_value (type_text (js "Hi") dark_page)) = js "Hi" /\
  length (chatBox (submit (net_reply (js "ok")) (type_text (js "Hi") dark_page))) =
    2%nat /\
  theme_settled (submit (net_reply (js "ok")) (type_text (js "Hi") dark_page)) /\
  length (chatBox (submit net_down (type_text (js "Hi") dark_page))) = 2%nat /\
  theme_settled (submit net_down (type_text (js "Hi") dark_page)).
Proof.
  assert (H : theme_settled (type_text (js "Hi") dark_page)).
  { repeat split. right. reflexivity. }
  split; [exact H|]. split; [reflexivity|]. split; [reflexivity|].
  split; [exact (X15_submit_keeps_theme_settled (net_reply (js "ok"))
                   (type_text (js "Hi") dark_page) H)|].
  split; [reflexivity|].
  exact (X15_submit_keeps_theme_settled net_down (type_text (js "Hi") dark_page) H).
Defined.

(** ** Rendering line by line *)

Section Rendering.

Lemma parseMarkdown_markup (text : jsstring) :
  markup (parseMarkdown text) (specials text).
Proof.
  unfold parseMarkdown. destruct text as [|c t]; [constructor|].
  cbn [nonempty negb].
  assert (H : markup (olist (ulist (italic (bold (escapeHtml (c :: t))))))
                (specials (c :: t))).
  { apply (markup_step olist_re (js "<li>") (js "</li>"));
      [simpl; tauto|simpl; tauto|apply olist_delimited|].
    apply (markup_step ulist_re (js "<li>") (js "</li>"));
      [simpl; tauto|simpl; tauto|apply ulist_delimited|].
    apply (markup_step italic_re (js "<em>") (js "</em>"));
      [simpl; tauto|simpl; tauto|apply italic_delimited|].
    apply (markup_step bold_re (js "<strong>") (js "</strong>"));
      [simpl; tauto|simpl; tauto|apply bold_delimited|].
    rewrite escapeHtml_flat_map. apply markup_escaped. }
  destruct (markup_lines _ _ H) as (ess & Hall & ->).
  by apply wrap_lines_markup.
Qed.

(** A pattern that matches at no position of a text leaves the text. *)
Lemma replace_unmatched (r : regex) (tpl : template) (s : jsstring) :
  (forall prev x y, s = x ++ y -> exec r prev y = None) ->
  replace r tpl s = s.
Proof.
  intros H. unfold replace. rewrite <- (app_nil_r s) at 1.
  rewrite scan_copy.
  - cbn [scan]. rewrite (H _ s [] (eq_sym (app_nil_r s))). by rewrite app_nil_r.
  - intros x y E _. rewrite app_nil_r. by apply (H _ x y).
Qed.

Lemma replace_absent (c : char) (r : regex) (tpl : template) (s : jsstring) :
  ~ In c s -> replace (Chr c :: r) tpl s = s.
Proof.
  intros Hc. apply replace_unmatched. intros prev x y ->.
  unfold exec. cbn [mseq]. destruct y as [|d y]; [done|].
  destruct (N.eqb_spec c d) as [->|]; [|done].
  destruct Hc. apply in_or_app. right. by left.
Qed.

Lemma ulist_needs_hyphen prev s res :
  exec ulist_re prev s = Some res -> In (ch "-") s.
Proof.
  intros H. apply mseq_sound in H. simpl in H.
  destruct H as (_ & w1 & t1 & -> & _ & t2 & -> & _).
  apply in_or_app. right. by left.
Qed.

Lemma olist_needs_digit prev s res :
  exec olist_re prev s = Some res -> exists d, In d s /\ isDigit d = true.
Proof.
  intros H. apply mseq_sound in H. simpl in H.
  destruct H as (_ & w1 & t1 & -> & _ & g & w2 & t2 & -> & Hg & _).
  exists g. split; [|done]. apply in_or_app. right. by left.
Qed.

Lemma inline_nil : inline [] = [].
Proof. reflexivity. Qed.

Lemma extract_steps (lines lines' : list jsstring) :
  Forall2 renders lines lines' ->
  exists Ms,
    Forall2 (line_step [StarG isSpace; Chr (ch "-"); PlusG isSpace; Open;
                        StarG isDot; Close; Eol] li_tpl) (inline <$> lines) Ms /\
    Forall2 (line_step [StarG isSpace; PlusG isDigit; Chr (ch "."); PlusG isSpace;
                        Open; StarG isDot; Close; Eol] li_tpl) Ms lines' /\
    Forall (fun y => ~ In LF y) lines'.
Proof.
  induction 1 as [|L L' ls ls' (M & H1 & H2 & H3) Hrest (Ms & IH1 & IH2 & IH3)].
  - exists []. repeat split; constructor.
  - exists (M :: Ms). rewrite fmap_cons. repeat split; by constructor.
Qed.

(** Steps 1 to 5 work line by line on a text whose lines each render. *)
Lemma rendered_lines (lines lines' : list jsstring) :
  lines <> [] ->
  Forall2 renders lines lines' ->
  parseMarkdown (join_lines lines) = wrap_lines lines'.
Proof.
  intros Hne Hall.
  destruct (extract_steps _ _ Hall) as (Ms & H1 & H2 & H3).
  destruct lines as [|L ls]; [done|].
  assert (Htext : nonempty (join_lines (L :: ls)) = true).
  { inversion Hall as [|? ? ? ? (M & (HL & _) & _) ?]; subst.
    destruct L as [|c L]; [done|]. by destruct ls. }
  unfold parseMarkdown. rewrite Htext. cbn [negb].
  change (italic (bold (escapeHtml ?x))) with (inline x).
  rewrite inline_join_lines.
  unfold olist, ulist, replace, olist_re, ulist_re.
  rewrite (scan_anchored_lines _ li_tpl _ Ms H1); [|done|done].
  rewrite (scan_anchored_lines _ li_tpl _ lines' H2); [|by inversion H1|done].
  destruct lines' as [|L' ls']; [by inversion Hall|].
  by rewrite split_lines_join.
Qed.

Lemma renders_item (l : list_line) :
  loose_line l = true -> renders (source_line l) (rendered_item l).
Proof.
  intros Hl. exists (after_ulist (processed l)).
  rewrite (inline_source_line l Hl).
  split; [by apply ulist_line, processed_loose|].
  split; [by apply olist_line, processed_loose|].
  by apply rendered_item_no_LF.
Qed.

End Rendering.

(** ** Lines of running text *)

Section PlainLines.

Lemma wf_plain_parts (l : plain_line) :
  wf_plain l = true ->
  forallb isWhiteSpace (lead l) = true /\
  (exists c t, body l = c :: t /\ plain_first c = true) /\
  forallb isDot (body l) = true /\ no_star (body l) = true.
Proof.
  unfold wf_plain. rewrite !andb_true_iff. intros [[[H1 H2] H3] H4].
  repeat split; try done. destruct (body l) as [|c t]; [done|]. by exists c, t.
Qed.

Lemma plain_first_facts (c : char) :
  plain_first c = true ->
  isSpace c = false /\ (ch "-" =? c) = false /\ isDigit c = false.
Proof.
  unfold plain_first. rewrite !andb_true_iff, !negb_true_iff.
  intros [[H1 H2] H3]. repeat split; try done.
  rewrite N.eqb_sym. done.
Qed.

Lemma entity_ref_starts (e : entity) :
  exists R, entity_ref e = ch "&" :: R.
Proof. destruct e; by eexists. Qed.

Lemma escaped_plain (c : char) (t : jsstring) :
  plain_first c = true ->
  exists d R, escapeHtml (c :: t) = d :: R /\ plain_first d = true.
Proof.
  intros Hc. rewrite escapeHtml_flat_map. cbn [flat_map]. unfold escape_char.
  destruct (entity_of c) as [e|].
  - destruct (entity_ref_starts e) as (R & ->). by eexists _, _.
  - by eexists _, _.
Qed.

Lemma escaped_chars (P : char -> Prop) (s : jsstring) (c : char) :
  In c (escapeHtml s) -> In c s \/ In c (js "&amp;lt;gt;").
Proof.
  rewrite escapeHtml_flat_map. intros (x & Hx & Hc)%in_flat_map.
  unfold escape_char in Hc. destruct (entity_of x) as [e|].
  - right. destruct e; simpl in Hc |- *; tauto.
  - left. destruct Hc as [<-|[]]. done.
Qed.

Lemma no_star_in (s : jsstring) : no_star s = true -> ~ In (ch "*") s.
Proof.
  unfold no_star. rewrite forallb_forall. intros H Hin.
  specialize (H _ Hin). by rewrite N.eqb_refl in H.
Qed.

Lemma escaped_no_star (s : jsstring) :
  no_star s = true -> ~ In (ch "*") (escapeHtml s).
Proof.
  intros Hs Hin. apply (escaped_chars (fun _ => True)) in Hin as [Hin|Hin].
  - by apply (no_star_in s).
  - vm_compute in Hin. repeat destruct Hin as [Hin|Hin]; done.
Qed.

Lemma escaped_no_lt (s : jsstring) : ~ In (ch "<") (escapeHtml s).
Proof.
  intros Hin. rewrite escapeHtml_flat_map in Hin.
  apply in_flat_map in Hin as (x & Hx & Hc).
  unfold escape_char, entity_of in Hc.
  destruct (N.eqb_spec x (ch "&")); [vm_compute in Hc; repeat destruct Hc as [Hc|Hc]; done|].
  destruct (N.eqb_spec x (ch "<")); [vm_compute in Hc; repeat destruct Hc as [Hc|Hc]; done|].
  destruct (N.eqb_spec x (ch ">")); [vm_compute in Hc; repeat destruct Hc as [Hc|Hc]; done|].
  destruct Hc as [->|[]]. done.
Qed.

(** Without a star in it, a text goes through steps 2 and 3 as it is. *)
Lemma inline_no_star (s : jsstring) :
  no_star s = true -> inline s = escapeHtml s.
Proof.
  intros Hs. unfold inline, italic, bold, italic_re, bold_re.
  rewrite (replace_absent (ch "*") _ strong_tpl (escapeHtml s))
    by (by apply escaped_no_star).
  by rewrite (replace_absent (ch "*")) by (by apply escaped_no_star).
Qed.

Lemma plain_text (c : char) : plain_first c = true -> negb (isSpace c) = true.
Proof. intros (-> & _)%plain_first_facts. done. Qed.

Lemma plain_rendered_dots (l : plain_line) :
  wf_plain l = true -> forallb isDot (plain_rendered l) = true.
Proof.
  intros (Hlead & (c & t & Hb & Hc) & Hd & Hs)%wf_plain_parts.
  unfold plain_rendered. rewrite forallb_app, (white_space_dots _ Hlead).
  apply escaped_text; [|done]. rewrite Hb. by apply plain_text.
Qed.

Lemma renders_plain (l : plain_line) :
  wf_plain l = true -> renders (plain_source l) (plain_rendered l).
Proof.
  intros Hl. pose proof (plain_rendered_dots l Hl) as Hdots.
  destruct (wf_plain_parts l Hl) as (Hlead & (c & t & Hb & Hc) & Hd & Hs).
  unfold renders, plain_source, plain_rendered in *.
  rewrite inline_after_header by (by apply space_header, white_space_run).
  rewrite (inline_no_star _ Hs).
  rewrite Hb in *. destruct (escaped_plain c t Hc) as (d & R & E & Hd').
  rewrite E in *. rewrite forallb_app in Hdots.
  apply andb_prop in Hdots as [_ HdR].
  destruct (plain_first_facts d Hd') as (E1 & E2 & E3).
  assert (Hend : forall prev, at_line_start (prev_at prev (lead l ++ d :: R)) = false)
    by (intros prev; by apply at_line_start_inside).
  assert (Hne : lead l ++ d :: R <> []) by (by destruct (lead l)).
  exists (lead l ++ d :: R). split; [|split].
  - apply line_step_copy; [done|done|].
    apply copy_positions; [by apply white_space_run|done|].
    intros prev ind2 T Hind2. by apply exec_ulist_none.
  - apply line_step_copy; [done|done|].
    apply copy_positions; [by apply white_space_run|done|].
    intros prev ind2 T Hind2. by apply exec_olist_none.
  - apply dots_no_LF. rewrite forallb_app, (white_space_dots _ Hlead). done.
Qed.

Lemma includes_no_lt (s : jsstring) :
  ~ In (ch "<") s -> includes (js "<li>") s = false.
Proof.
  induction s as [|c s IH]; [done|]. intros H. cbn [includes].
  rewrite IH by (intros Hin; apply H; by right).
  change (startsWith (js "<li>") (c :: s))
    with ((ch "<" =? c) && startsWith (js "li>") s).
  destruct (N.eqb_spec (ch "<") c) as [<-|_]; [|done].
  destruct H. by left.
Qed.

Lemma plain_rendered_walk (l : plain_line) :
  wf_plain l = true ->
  includes (js "<li>") (plain_rendered l) = false /\
  nonempty (trim (plain_rendered l)) = true.
Proof.
  intros Hl.
  destruct (wf_plain_parts l Hl) as (Hlead & (c & t & Hb & Hc) & Hd & Hs).
  split.
  - apply includes_no_lt. unfold plain_rendered.
    intros [Hin|Hin]%in_app_or; [|by apply (escaped_no_lt (body l))].
    apply white_space_run in Hlead. rewrite forallb_forall in Hlead.
    specialize (Hlead _ Hin). vm_compute in Hlead. discriminate.
  - destruct (nonempty (trim (plain_rendered l))) eqn:E; [done|].
    apply trim_blank in E. unfold plain_rendered in E.
    rewrite Hb in E. destruct (escaped_plain c t Hc) as (d & R & E' & Hd').
    rewrite E', forallb_app in E. apply andb_prop in E as [_ E].
    simpl in E. apply andb_prop in E as [E _].
    by rewrite (proj1 (plain_first_facts d Hd')) in E.
Qed.

(** The line walk over lines of running text: a grouping that is open is
    closed at the first of them, and each becomes a paragraph. *)
Lemma walk_paragraphs (ps : list plain_line) :
  forallb wf_plain ps = true ->
  forall html b,
    foldl walk_line (html, b) (plain_rendered <$> ps) =
    match ps with
    | [] => (html, b)
    | _ :: _ =>
        ((if b then html ++ js "</ul>" else html) ++ concat (paragraph <$> ps),
         false)
    end.
Proof.
  induction ps as [|l ps IH]; [done|]. cbn [forallb].
  intros [Hl Hps]%andb_prop html b. rewrite fmap_cons. cbn [foldl].
  destruct (plain_rendered_walk l Hl) as [H1 H2].
  unfold walk_line at 2. rewrite H1, H2. rewrite (IH Hps).
  destruct ps as [|l' ps]; rewrite !fmap_cons; cbn [concat].
  - by rewrite app_nil_r.
  - unfold paragraph at 3. by rewrite <- !app_assoc.
Qed.

Lemma walk_paragraphs_start (ps : list plain_line) :
  forallb wf_plain ps = true ->
  foldl walk_line ([], false) (plain_rendered <$> ps) =
  (concat (paragraph <$> ps), false).
Proof.
  intros H. rewrite (walk_paragraphs ps H). by destruct ps.
Qed.

Lemma all_plain_render (ps : list plain_line) :
  forallb wf_plain ps = true ->
  Forall2 renders (plain_source <$> ps) (plain_rendered <$> ps).
Proof.
  intros H. rewrite forallb_forall in H.
  apply Forall2_fmap, Forall_Forall2_diag, Forall_forall.
  intros l Hin. apply renders_plain, H. by apply list_elem_of_In.
Qed.

Lemma all_items_render (ls : list list_line) :
  forallb wf_line ls = true ->
  Forall2 renders (source_line <$> ls) (rendered_item <$> ls).
Proof.
  intros H. rewrite forallb_forall in H.
  apply Forall2_fmap, Forall_Forall2_diag, Forall_forall.
  intros l Hin. apply renders_item, wf_line_loose, H. by apply list_elem_of_In.
Qed.

End PlainLines.

(** X16: a text whose lines are running text (each begins, behind optional
    white space, with a character that is neither a hyphen nor a digit and
    holds no star) is rendered as one paragraph per line, in order, each
    holding the line with its [&], [<] and [>] escaped; the line breaks
    themselves are dropped. *)
Theorem X16_plain_lines_become_paragraphs (ps : list plain_line) :
  ps <> [] ->
  forallb wf_plain ps = true ->
  parseMarkdown (join_lines (plain_source <$> ps)) = concat (paragraph <$> ps).
Proof.
  intros Hne Hwf.
  rewrite (rendered_lines _ (plain_rendered <$> ps));
    [|by destruct ps|by apply all_plain_render].
  unfold wrap_lines. by rewrite (walk_paragraphs_start ps Hwf).
Qed.

Lemma X16_plain_lines_witness :
  two_paragraphs <> [] /\
  forallb wf_plain two_paragraphs = true /\
  parseMarkdown (js "a < b" ++ [LF] ++ js "  tail & more") =
    js "<p>a &lt; b</p><p>  tail &amp; more</p>".
Proof.
  assert (H1 : two_paragraphs <> []) by discriminate.
  assert (H2 : forallb wf_plain two_paragraphs = true) by reflexivity.
  split; [exact H1|]. split; [exact H2|].
  exact (X16_plain_lines_become_paragraphs two_paragraphs H1 H2).
Defined.

(** X17: a run of list lines between lines of running text is rendered as
    the paragraphs of the lines before it, one list grouping with one item
    per list line, and the paragraphs of the lines behind it: the grouping
    is opened at the first list line and closed at the first line of
    running text behind the run, or at the end of the text. *)
Theorem X17_list_between_paragraphs (ps1 ps2 : list plain_line)
    (ls : list list_line) :
  ls <> [] ->
  forallb wf_plain ps1 = true ->
  forallb wf_line ls = true ->
  forallb wf_plain ps2 = true ->
  parseMarkdown (join_lines ((plain_source <$> ps1) ++ (source_line <$> ls) ++
                             (plain_source <$> ps2))) =
  concat (paragraph <$> ps1) ++
  (js "<ul>" ++ concat (rendered_item <$> ls) ++ js "</ul>") ++
  concat (paragraph <$> ps2).
Proof.
  intros Hne H1 Hls H2.
  rewrite (rendered_lines _ ((plain_rendered <$> ps1) ++ (rendered_item <$> ls) ++
                             (plain_rendered <$> ps2))).
  - unfold wrap_lines. rewrite !foldl_app, (walk_paragraphs_start ps1 H1).
    destruct ls as [|l ls]; [done|]. rewrite !fmap_cons. cbn [foldl].
    unfold walk_line at 3. rewrite rendered_item_li. cbn [negb].
    rewrite walk_list_lines.
    2:{ apply Forall_fmap, Forall_forall. intros x _. apply rendered_item_li. }
    rewrite (walk_paragraphs ps2 H2). cbn [concat].
    destruct ps2 as [|p2 ps2].
    + cbn [fmap list_fmap concat]. by rewrite app_nil_r, <- !app_assoc.
    + by rewrite <- !app_assoc.
  - destruct ls as [|l ls]; [done|]. rewrite fmap_cons.
    by destruct (plain_source <$> ps1).
  - apply Forall2_app; [by apply all_plain_render|].
    apply Forall2_app; [by apply all_items_render|by apply all_plain_render].
Qed.

Lemma X17_list_between_witness :
  one_two_lines <> [] /\
  forallb wf_plain two_paragraphs = true /\
  forallb wf_line one_two_lines = true /\
  parseMarkdown (js "a < b" ++ [LF] ++ js "  tail & more" ++ [LF] ++
                 js "- one" ++ [LF] ++ js "- two" ++ [LF] ++
                 js "a < b" ++ [LF] ++ js "  tail & more") =
    js "<p>a &lt; b</p><p>  tail &amp; more</p>" ++
    js "<ul><li>one</li><li>two</li></ul>" ++
    js "<p>a &lt; b</p><p>  tail &amp; more</p>".
Proof.
  assert (H1 : one_two_lines <> []) by discriminate.
  assert (H2 : forallb wf_plain two_paragraphs = true) by reflexivity.
  assert (H3 : forallb wf_line one_two_lines = true) by reflexivity.
  split; [exact H1|]. split; [exact H2|]. split; [exact H3|].
  exact (X17_list_between_paragraphs two_paragraphs two_paragraphs one_two_lines
           H1 H2 H3 H2).
Defined.

(** ** White space, stars and line feeds *)

Ltac no_LF_in :=
  let H := fresh in
  intros H; vm_compute in H;
  repeat (destruct H as [H|H]; [discriminate H|]); exact H.

Section Blank.

Lemma split_lines_forall (P : char -> Prop) (s : jsstring) :
  Forall P s -> Forall (Forall P) (split_lines s).
Proof.
  induction 1 as [|c s Hc Hs IH]; [by repeat constructor|].
  simpl. destruct (c =? LF); [by constructor|].
  destruct (split_lines s) as [|l ls]; [by repeat constructor|].
  inversion IH; subst. constructor; [by constructor|done].
Qed.

Lemma split_lines_no_LF (s : jsstring) :
  Forall (fun l => ~ In LF l) (split_lines s).
Proof.
  induction s as [|c s IH].
  { cbn [split_lines]. constructor; [intros []|constructor]. }
  cbn [split_lines]. destruct (N.eqb_spec c LF) as [->|Hc].
  { constructor; [intros []|done]. }
  destruct (split_lines s) as [|l ls].
  - constructor; [|constructor]. intros [?|[]]. by apply Hc.
  - inversion IH; subst. constructor; [|done]. intros [?|?]; [by apply Hc|done].
Qed.

Lemma walk_blank_lines (lines : list jsstring) :
  Forall (fun l => forallb isSpace l = true) lines ->
  foldl walk_line ([], false) lines = ([], false).
Proof.
  induction 1 as [|l lines Hl Hlines IH]; [done|]. cbn [foldl].
  unfold walk_line at 2. by rewrite (includes_none l Hl), (trim_all_space l Hl).
Qed.

Lemma space_not_in (s : jsstring) (c : char) :
  forallb isSpace s = true -> isSpace c = false -> ~ In c s.
Proof.
  rewrite forallb_forall. intros H Hc Hin. by rewrite (H c Hin) in Hc.
Qed.

Lemma space_suffix (x y : jsstring) :
  forallb isSpace (x ++ y) = true -> forallb isSpace y = true.
Proof. rewrite forallb_app. by intros [_ ?]%andb_prop. Qed.

(** A text of white space goes through steps 1 to 5 as it is. *)
Lemma blank_steps (s : jsstring) :
  forallb isSpace s = true ->
  olist (ulist (italic (bold (escapeHtml s)))) = s.
Proof.
  intros Hs. unfold escapeHtml, amp_re, lt_re, gt_re.
  rewrite (replace_absent (ch "&") _ _ s) by (by apply space_not_in).
  rewrite (replace_absent (ch "<") _ _ s) by (by apply space_not_in).
  rewrite (replace_absent (ch ">") _ _ s) by (by apply space_not_in).
  unfold bold, bold_re.
  rewrite (replace_absent (ch "*") _ _ s) by (by apply space_not_in).
  unfold italic, italic_re.
  rewrite (replace_absent (ch "*") _ _ s) by (by apply space_not_in).
  unfold ulist. rewrite (replace_unmatched ulist_re).
  2:{ intros prev x y ->. destruct (exec ulist_re prev y) as [res|] eqn:E; [|done].
      apply ulist_needs_hyphen in E. apply space_suffix in Hs.
      by destruct (space_not_in y (ch "-") Hs). }
  unfold olist. apply replace_unmatched.
  intros prev x y ->. destruct (exec olist_re prev y) as [res|] eqn:E; [|done].
  apply olist_needs_digit in E as (d & Hin & Hd). apply space_suffix in Hs.
  destruct (space_not_in y d Hs); [|done].
  by apply digit_facts.
Qed.

Lemma parseMarkdown_blank (s : jsstring) :
  forallb isSpace s = true -> parseMarkdown s = [].
Proof.
  intros Hs. unfold parseMarkdown. destruct (nonempty s); [|done].
  cbn [negb]. rewrite (blank_steps s Hs). unfold wrap_lines.
  rewrite walk_blank_lines; [done|].
  assert (H : Forall (fun c => isSpace c = true) s)
    by (apply Forall_forall; intros c Hc; rewrite forallb_forall in Hs;
        apply Hs; by apply list_elem_of_In).
  apply split_lines_forall in H.
  eapply Forall_impl; [exact H|]. intros l Hl. cbn beta.
  apply forallb_forall. intros c Hc. rewrite Forall_forall in Hl.
  apply Hl. by apply list_elem_of_In.
Qed.

Lemma star_count_app (x y : jsstring) :
  occurrences (js "*") (x ++ y) =
  (occurrences (js "*") x + occurrences (js "*") y)%nat.
Proof.
  change (js "*") with [ch "*"].
  induction x as [|c x IH]; [done|].
  rewrite <- app_comm_cons. cbn [occurrences startsWith]. rewrite IH. lia.
Qed.

Lemma star_count_cons (y : jsstring) :
  occurrences (js "*") (ch "*" :: y) = S (occurrences (js "*") y).
Proof. reflexivity. Qed.

Lemma walk_line_no_LF (html line : jsstring) (b : bool) :
  ~ In LF html -> ~ In LF line -> ~ In LF (fst (walk_line (html, b) line)).
Proof.
  intros Hh Hl. unfold walk_line.
  assert (Hul : ~ In LF (js "<ul>")) by no_LF_in.
  assert (Hcl : ~ In LF (js "</ul>")) by no_LF_in.
  assert (Hp : ~ In LF (js "<p>")) by no_LF_in.
  assert (Hcp : ~ In LF (js "</p>")) by no_LF_in.
  destruct (includes (js "<li>") line); cbn [fst].
  - destruct b; cbn [negb]; rewrite ?in_app_iff; tauto.
  - destruct (nonempty (trim line)); destruct b; rewrite ?in_app_iff; tauto.
Qed.

Lemma walk_no_LF (lines : list jsstring) :
  Forall (fun l => ~ In LF l) lines ->
  forall html b, ~ In LF html ->
    ~ In LF (fst (foldl walk_line (html, b) lines)).
Proof.
  induction 1 as [|l lines Hl Hlines IH]; intros html b Hh; [done|].
  cbn [foldl]. pose proof (walk_line_no_LF html l b Hh Hl) as H.
  destruct (walk_line (html, b) l) as [html' b']. by apply IH.
Qed.

End Blank.

(** X18: a text that holds nothing but white space and line breaks is
    rendered as the empty string. *)
Theorem X18_blank_text_renders_empty (s : jsstring) :
  forallb isSpace s = true -> parseMarkdown s = [].
Proof. apply parseMarkdown_blank. Qed.

Lemma X18_blank_text_witness :
  forallb isSpace (js "  " ++ [LF; 13] ++ js " ") = true /\
  parseMarkdown (js "  " ++ [LF; 13] ++ js " ") = [].
Proof.
  assert (H : forallb isSpace (js "  " ++ [LF; 13] ++ js " ") = true) by reflexivity.
  split; [exact H|]. exact (X18_blank_text_renders_empty _ H).
Defined.

(** X19: a result that is not empty but holds only white space is truthy:
    the cycle ends as a success, the placeholder is left with empty
    content and the model turn with that white space is stored. *)
Theorem X19_blank_result_gives_empty_bubble
    (net : list turn -> fetch_outcome) (p : page) (s : jsstring) :
  trim (input_value p) <> [] ->
  result_string (net (sent p)) = Some s ->
  s <> [] ->
  forallb isSpace s = true ->
  chatBox (submit net p) =
    chatBox p ++ [Message User (TextContent (trim (input_value p)));
                  Message Model (InnerHTML [])] /\
  conversationHelper (submit net p) =
    conversationHelper p ++ [Turn User (trim (input_value p)); Turn Model s].
Proof.
  intros Hne Hr Hs Hb. rewrite (submit_result net p s Hne Hr Hs).
  cbn [chatBox conversationHelper]. rewrite (parseMarkdown_blank s Hb).
  split; [done|]. unfold sent. by rewrite <- app_assoc.
Qed.

Lemma X19_blank_result_witness :
  trim (input_value hello_page) <> [] /\
  result_string (net_reply (js "  ") (sent hello_page)) = Some (js "  ") /\
  js "  " <> [] /\
  forallb isSpace (js "  ") = true /\
  chatBox (submit (net_reply (js "  ")) hello_page) =
    chatBox hello_page ++
    [Message User (TextContent (trim (input_value hello_page)));
     Message Model (InnerHTML [])].
Proof.
  assert (H1 : trim (input_value hello_page) <> []) by (vm_compute; discriminate).
  assert (H3 : js "  " <> []) by (vm_compute; discriminate).
  split; [exact H1|]. split; [reflexivity|]. split; [exact H3|].
  split; [reflexivity|].
  exact (proj1 (X19_blank_result_gives_empty_bubble (net_reply (js "  "))
                  hello_page (js "  ") H1 eq_refl H3 eq_refl)).
Defined.

(** X20: markers and indentation do not show in the output.  Two texts of
    list lines with the same item texts, whatever their markers (hyphen or
    number), their indentation and the white space behind the marker, are
    rendered the same: numbered and nested lists come out as the same flat
    list. *)
Theorem X20_markers_and_indentation_do_not_show (ls ls' : list list_line) :
  ls <> [] ->
  forallb wf_line ls = true ->
  forallb wf_line ls' = true ->
  item <$> ls = item <$> ls' ->
  parseMarkdown (join_lines (source_line <$> ls)) =
  parseMarkdown (join_lines (source_line <$> ls')).
Proof.
  intros Hne H1 H2 E.
  assert (Hne' : ls' <> []) by (destruct ls, ls'; done).
  rewrite (one_list_of_lines ls Hne (all_wf_loose ls H1)).
  rewrite (one_list_of_lines ls' Hne' (all_wf_loose ls' H2)).
  change rendered_item
    with ((fun x => js "<li>" ++ italic (bold (escapeHtml x)) ++ js "</li>") ∘ item).
  by rewrite !list_fmap_compose, E.
Qed.

Lemma X20_markers_witness :
  mixed_numbered <> [] /\
  forallb wf_line mixed_numbered = true /\
  forallb wf_line mixed_hyphen = true /\
  item <$> mixed_numbered = item <$> mixed_hyphen /\
  parseMarkdown (js "  12. one" ++ [LF] ++ js "-   *two*") =
  parseMarkdown (js "- one" ++ [LF] ++ js " 7. *two*").
Proof.
  assert (H1 : mixed_numbered <> []) by discriminate.
  assert (H2 : forallb wf_line mixed_numbered = true) by reflexivity.
  assert (H3 : forallb wf_line mixed_hyphen = true) by reflexivity.
  assert (H4 : item <$> mixed_numbered = item <$> mixed_hyphen) by reflexivity.
  split; [exact H1|]. split; [exact H2|]. split; [exact H3|]. split; [exact H4|].
  exact (X20_markers_and_indentation_do_not_show mixed_numbered mixed_hyphen
           H1 H2 H3 H4).
Defined.

(** X21: a star without partner stays a literal star: a text with at most
    one star goes through steps 2 and 3 unchanged. *)
Theorem X21_lone_star_is_left (s : jsstring) :
  (occurrences (js "*") s <= 1)%nat ->
  bold s = s /\ italic s = s.
Proof.
  intros Hs. split.
  - apply replace_unmatched. intros prev x y ->.
    destruct (exec bold_re prev y) as [[n cap]|] eqn:E; [|done].
    apply bold_match_shape in E as (w & rest & -> & _).
    rewrite star_count_app in Hs.
    change (js "**" ++ w ++ js "**" ++ rest)
      with (ch "*" :: ch "*" :: (w ++ js "**" ++ rest)) in Hs.
    rewrite !star_count_cons in Hs. lia.
  - apply replace_unmatched. intros prev x y ->.
    destruct (exec italic_re prev y) as [[n cap]|] eqn:E; [|done].
    apply italic_match_shape in E as (w & rest & -> & _).
    rewrite star_count_app, star_count_cons, star_count_app, star_count_cons in Hs.
    lia.
Qed.

Lemma X21_lone_star_witness :
  (occurrences (js "*") (js "2 * 3") <= 1)%nat /\
  bold (js "2 * 3") = js "2 * 3" /\ italic (js "2 * 3") = js "2 * 3".
Proof.
  assert (H : (occurrences (js "*") (js "2 * 3") <= 1)%nat) by (vm_compute; lia).
  split; [exact H|]. exact (X21_lone_star_is_left (js "2 * 3") H).
Defined.

(** X22: escaping and emphasis stay within a line: on a text of several
    lines, each of the steps 1 to 3 gives the lines of the text with the
    step applied to each, so a span of emphasis never runs across a line
    feed. *)
Theorem X22_emphasis_stays_within_line (l : jsstring) (ls : list jsstring) :
  escapeHtml (join_lines (l :: ls)) = join_lines (escapeHtml <$> (l :: ls)) /\
  bold (join_lines (l :: ls)) = join_lines (bold <$> (l :: ls)) /\
  italic (join_lines (l :: ls)) = join_lines (italic <$> (l :: ls)).
Proof.
  split; [|split].
  - unfold escapeHtml.
    rewrite <- (list_fmap_id (l :: ls)) at 1.
    rewrite (join_lines_step amp_re) by done.
    rewrite (join_lines_step lt_re) by done.
    by rewrite (join_lines_step gt_re) by done.
  - by apply replace_join_lines.
  - by apply replace_join_lines.
Qed.

(** X23: the chat box only ever receives safe markup.  If every message
    whose content was set as HTML holds safe markup, the same is true after
    a submission, whatever the backend answers: the handler assigns HTML
    only from [parseMarkdown], and the user's text and the fixed texts are
    set as text. *)
Theorem X23_chat_box_stays_safe
    (net : list turn -> fetch_outcome) (p : page) :
  Forall safe_message (chatBox p) ->
  Forall safe_message (chatBox (submit net p)).
Proof.
  intros H. destruct (trim (input_value p)) as [|c t] eqn:E.
  { by rewrite (submit_blank net p E). }
  rewrite (submit_cycle_end net p) by (by rewrite E).
  assert (Hu : safe_message (Message User (TextContent (c :: t)))) by done.
  destruct (raised (net _)).
  { cbn [cycle_end chatBox]. apply Forall_app. split; [done|].
    rewrite E. by repeat constructor. }
  destruct (result_string (net _)) as [[|c' s]|]; cbn [cycle_end chatBox];
    apply Forall_app; (split; [done|]); rewrite E; repeat constructor; try done.
  exists (specials (c' :: s)). apply parseMarkdown_markup.
Qed.

Lemma X23_chat_box_witness :
  Forall safe_message (chatBox hello_page) /\
  Forall safe_message
    (chatBox (submit (net_reply (js "<script>x</script>")) hello_page)).
Proof.
  assert (H : Forall safe_message (chatBox hello_page)) by constructor.
  split; [exact H|].
  exact (X23_chat_box_stays_safe (net_reply (js "<script>x</script>")) hello_page H).
Defined.

(** X24: [addMessage] appends one element and returns the reference to it:
    the element at the returned position has the given role; for a user
    message its content is the text, set as text, and for a model message
    it is the rendered text, which is safe markup.  The elements before it
    are not touched. *)
Theorem X24_addMessage_appends_and_returns (r : role) (t : jsstring) (p : page) :
  exists i m,
    fst (addMessage r t p) = inr i /\
    i = length (chatBox p) /\
    chatBox (snd (addMessage r t p)) = chatBox p ++ [m] /\
    chatBox (snd (addMessage r t p)) !! i = Some m /\
    msg_role m = r /\
    safe_message m /\
    msg_body m = match r with
                 | User => TextContent t
                 | Model => InnerHTML (parseMarkdown t)
                 end.
Proof.
  exists (length (chatBox p)).
  exists (Message r match r with
                    | Model => InnerHTML (parseMarkdown t)
                    | User => TextContent t
                    end).
  repeat split.
  - unfold addMessage. run_handler.
    by rewrite lookup_app_r, Nat.sub_diag.
  - destruct r; cbn; [done|]. exists (specials t). apply parseMarkdown_markup.
Qed.

(** X25: the output of [parseMarkdown] holds no line feed: the text is
    split at the line feeds and the lines are put together without them. *)
Theorem X25_output_has_no_line_feed (text : jsstring) :
  ~ In LF (parseMarkdown text).
Proof.
  unfold parseMarkdown. destruct (nonempty text); cbn [negb]; [|by intros []].
  unfold wrap_lines.
  pose proof (walk_no_LF _ (split_lines_no_LF
                (olist (ulist (italic (bold (escapeHtml text))))))
                [] false (fun H => H)) as H.
  destruct (foldl walk_line _ _) as [html inList]. cbn [fst] in H.
  destruct inList; [|done]. rewrite in_app_iff. intros [?|Hin]; [done|].
  revert Hin. no_LF_in.
Qed.
